(** * Morse_Code_Robot: the decoding core of the two robot scripts

    A shallow embedding of [MorseCodeDecoderRobot] as found in
    [Dual_sensor_follower_GearsBot_30030295.py] (module [V1]) and in
    [Morse_Code_Robot_30030295_Mariusz Soltycz.py] (module [V2]).

    Modelling choices.
    - Times and durations are Python floats obtained from [time.time()]; a
      finite float is modelled by the rational [Q] it denotes. The loop is
      given twice: with the float operations of the scripts (subtraction,
      the products with 0.2, 0.5 and 1, the quotient) taken from a record
      [FloatOps], of which [binary64] is the IEEE double instance, and with
      exact rational arithmetic, the literals 0.2 and 0.5 read as 2/10 and
      5/10, which is the model the properties that do not depend on
      rounding are stated on.
    - Every read of a sensor or of the clock is an input: one [Tick] carries
      what one pass of the [while True] loop reads.
    - Python exceptions are explicit: a step returns [Ok] or [Raise].
    - Motors, speaker and display are not part of the decoding state;
      [adjust_heading] and [announce_start] only drive them and are left out.
    - The fields [current_detected_color], [signal_gap_duration] and
      [signal_duration] are set to [None] by [initialize] and never used
      again; they are not carried in [State]. *)

From Stdlib Require Import ZArith QArith Qround Qabs Qpower Lqa String Ascii List Bool Lia.
Import ListNotations.

Local Open Scope string_scope.

(** ** Python primitives used by the scripts *)

Module Py.

Inductive exn : Type :=
| TypeError
| ZeroDivisionError
| OverflowError.

Inductive result (A : Type) : Type :=
| Ok (a : A)
| Raise (e : exn).

Arguments Ok {A} a.
Arguments Raise {A} e.

Definition bind {A B : Type} (m : result A) (k : A -> result B) : result B :=
  match m with
  | Ok a => k a
  | Raise e => Raise e
  end.

(** [x < y] on floats. *)
Definition Qltb (x y : Q) : bool := negb (Qle_bool y x).

(** [round(x)] with one argument: nearest integer, ties to the even one. *)
Definition round (x : Q) : Z :=
  let f := Qfloor x in
  let r := x - inject_Z f in
  if Qltb r (1 # 2) then f
  else if Qltb (1 # 2) r then (f + 1)%Z
  else if Z.even f then f else (f + 1)%Z.

(** [s * n]: the empty string when [n <= 0]. *)
Fixpoint repeat_nat (s : string) (n : nat) : string :=
  match n with
  | O => ""
  | S k => s ++ repeat_nat s k
  end.

Definition str_mul (s : string) (n : Z) : string := repeat_nat s (Z.to_nat n).

(** [s.endswith(suffix)]: some suffix of [s] is [suffix]. *)
Fixpoint endswith (s suffix : string) : bool :=
  match s with
  | EmptyString => String.eqb s suffix
  | String _ rest => String.eqb s suffix || endswith rest suffix
  end.

(** [s.split(sep)] for a non-empty separator: occurrences are found from
    the left and do not overlap; [skip] counts the characters of a matched
    separator that are still to be passed over, [cur] is the piece read so
    far. *)
Fixpoint split_from (sep : string) (skip : nat) (cur s : string) : list string :=
  match s with
  | EmptyString => [cur]
  | String c rest =>
      match skip with
      | S k => split_from sep k cur rest
      | O =>
          if String.prefix sep s
          then cur :: split_from sep (String.length sep - 1) "" rest
          else split_from sep 0 (cur ++ String c "") rest
      end
  end.

Definition split (s sep : string) : list string := split_from sep 0 "" s.

(** Characters that [str.strip()] removes, among the code points below 256. *)
Definition isspace (c : ascii) : bool :=
  let n := nat_of_ascii c in
  ((9 <=? n)%nat && (n <=? 13)%nat) || ((28 <=? n)%nat && (n <=? 32)%nat)
  || (n =? 133)%nat || (n =? 160)%nat.

Fixpoint lstrip (s : string) : string :=
  match s with
  | EmptyString => ""
  | String c rest => if isspace c then lstrip rest else s
  end.

Fixpoint rstrip (s : string) : string :=
  match s with
  | EmptyString => ""
  | String c rest =>
      let rest' := rstrip rest in
      if isspace c && String.eqb rest' "" then "" else String c rest'
  end.

Definition strip (s : string) : string := rstrip (lstrip s).

(** [d.get(key, default)] on a dict given by its items. *)
Fixpoint dict_get (d : list (string * string)) (key default : string) : string :=
  match d with
  | [] => default
  | (k, v) :: rest => if String.eqb k key then v else dict_get rest key default
  end.

(** [s.replace(old, new)] for a non-empty [old]: the pieces between the
    occurrences of [old], found from the left without overlap, joined by
    [new]. *)
Definition replace (s old new : string) : string :=
  String.concat new (split s old).

End Py.

Import Py.

Notation "x <- m ;; k" := (bind m (fun x => k))
  (at level 61, m at next level, right associativity).

(** ** What both scripts share *)

(** One pass of the loop reads the path colour sensor, the obstacle sensor
    and, when an interval closes, the clock twice: once to measure the
    interval and once to restart the timer. *)
Record Tick : Type := mkTick {
  sensor_color : Z;
  obstacle_reading : Q;
  t_read : Q;
  t_reset : Q
}.

Record State : Type := mkState {
  last_detected_color : option Z;
  signal_start_time : Q;
  first_signal_duration : option Q;
  decoded_message : string
}.

(** [initialize] / [initialise]; [now] is the clock at that moment. *)
Definition initialize (now : Q) : State :=
  {| last_detected_color := None;
     signal_start_time := now;
     first_signal_duration := None;
     decoded_message := "" |}.

Definition set_first (st : State) (d : Q) : State :=
  {| last_detected_color := last_detected_color st;
     signal_start_time := signal_start_time st;
     first_signal_duration := Some d;
     decoded_message := decoded_message st |}.

Definition emit (st : State) (s : string) : State :=
  {| last_detected_color := last_detected_color st;
     signal_start_time := signal_start_time st;
     first_signal_duration := first_signal_duration st;
     decoded_message := decoded_message st ++ s |}.

Definition set_start (st : State) (t : Q) : State :=
  {| last_detected_color := last_detected_color st;
     signal_start_time := t;
     first_signal_duration := first_signal_duration st;
     decoded_message := decoded_message st |}.

Definition set_last (st : State) (c : Z) : State :=
  {| last_detected_color := Some c;
     signal_start_time := signal_start_time st;
     first_signal_duration := first_signal_duration st;
     decoded_message := decoded_message st |}.

(** Colour codes of the sensor. *)
Definition RED : Z := 5.
Definition WHITE : Z := 6.

(** [if detected_color in [4, 7]: detected_color = 5] *)
Definition alias_color (c : Z) : Z :=
  if (c =? 4)%Z || (c =? 7)%Z then RED else c.

(** [detected_color != self.last_detected_color] *)
Definition color_changed (c : Z) (last : option Z) : bool :=
  match last with
  | None => true
  | Some l => negb (l =? c)%Z
  end.

(** [self.last_detected_color is not None and self.last_detected_color in [5, 6]] *)
Definition decodable (last : option Z) : bool :=
  match last with
  | None => false
  | Some l => (l =? RED)%Z || (l =? WHITE)%Z
  end.

(** Evaluating [self.first_signal_duration] inside an arithmetic expression:
    [None] makes the multiplication raise. *)
Definition unit_of (st : State) : result Q :=
  match first_signal_duration st with
  | Some u => Ok u
  | None => Raise TypeError
  end.

Inductive outcome : Type :=
| Continue
| Terminate.

Definition morse_to_alpha_numeric : list (string * string) :=
  [ (".-", "A"); ("-...", "B"); ("-.-.", "C"); ("-..", "D"); (".", "E"); ("..-.", "F");
    ("--.", "G"); ("....", "H"); ("..", "I"); (".---", "J"); ("-.-", "K"); (".-..", "L");
    ("--", "M"); ("-.", "N"); ("---", "O"); (".--.", "P"); ("--.-", "Q"); (".-.", "R");
    ("...", "S"); ("-", "T"); ("..-", "U"); ("...-", "V"); (".--", "W"); ("-..-", "X");
    ("-.--", "Y"); ("--..", "Z"); ("-----", "0"); (".----", "1"); ("..---", "2");
    ("...--", "3"); ("....-", "4"); (".....", "5"); ("-....", "6"); ("--...", "7");
    ("---..", "8"); ("----.", "9") ].

(** ** Float arithmetic

    The operations on floats the scripts use. A finite float is the rational
    it denotes; [fsub] and [fmul] give the rounded difference and product,
    [fdiv] the rounded quotient of a division by a non-zero float, [None]
    when that quotient is infinite (then [round] raises [OverflowError]).
    Comparisons of floats are comparisons of the rationals. *)
Record FloatOps : Type := mkFloatOps {
  fsub : Q -> Q -> Q;
  fmul : Q -> Q -> Q;
  fdiv : Q -> Q -> option Q
}.

(** The literals [0.2] and [0.5] as the doubles they are read as. *)
Definition lit_0_2 : Q := 3602879701896397 # 18014398509481984.
Definition lit_0_5 : Q := 1 # 2.

(** IEEE 754 binary64, round to nearest, ties to even: [ilog2 a] is the
    exponent of the leading bit of [a > 0]; [b64 q] is the double nearest to
    [q], with 53 significant bits down to the subnormal exponent -1074, and
    [None] where the result is infinite. *)
Definition ilog2 (a : Q) : Z :=
  let e0 := (Z.log2 (Qnum a) - Z.log2 (Zpos (Qden a)))%Z in
  if Qle_bool (Qpower 2 e0) a then e0 else (e0 - 1)%Z.

Definition b64 (q : Q) : option Q :=
  if Qeq_bool q 0 then Some 0
  else
    let a := Qabs q in
    let e := Z.max (ilog2 a - 52) (-1074) in
    let r := Qred (inject_Z (round (a / Qpower 2 e)) * Qpower 2 e) in
    if Qle_bool (Qpower 2 1024) r then None
    else Some (if Qle_bool 0 q then r else Qred (- r)).

(** The difference of two clock values and the product of a duration with a
    literal of the scripts are never infinite; the exact value stands for
    that case. *)
Definition b64_finite (q : Q) : Q :=
  match b64 q with
  | Some r => r
  | None => q
  end.

Definition binary64 : FloatOps :=
  {| fsub := fun x y => b64_finite (x - y);
     fmul := fun x y => b64_finite (x * y);
     fdiv := fun x y => b64 (x / y) |}.

(** The body of [decode_path]'s loop is the same in both scripts up to the
    obstacle test and the block that interprets a closed interval. *)
Section Loop.

Variable obstacle_nearby : Tick -> bool.
Variable interpret : Q -> State -> result State.
Variable gap : string.

(** The [if detected_color != self.last_detected_color:] block. *)
Definition on_change (st : State) (tk : Tick) (detected_color : Z) : result State :=
  st1 <- (if decodable (last_detected_color st)
          then
            let signal_duration := t_read tk - signal_start_time st in
            st' <- interpret signal_duration st ;;
            Ok (set_start st' (t_reset tk))
          else Ok st) ;;
  Ok (set_last st1 detected_color).

(** The loop's exit test, apart from the obstacle. *)
Definition message_ended (st : State) : bool :=
  endswith (decoded_message st) (str_mul gap 7).

Definition termination_check (st : State) : outcome :=
  if message_ended st then Terminate else Continue.

(** One pass of [while True]; the boolean says whether [break] is reached. *)
Definition loop_body (st : State) (tk : Tick) : result (State * bool) :=
  let detected_color := alias_color (sensor_color tk) in
  st1 <- (if color_changed detected_color (last_detected_color st)
          then on_change st tk detected_color
          else Ok st) ;;
  Ok (st1, obstacle_nearby tk || message_ended st1).

(** [decode_path] on a finite prefix of what the sensors deliver:
    [Terminate] when the loop reached [break], [Continue] when the prefix
    is used up and the loop is still running. *)
Fixpoint decode_path (ticks : list Tick) (st : State) : result (State * outcome) :=
  match ticks with
  | [] => Ok (st, Continue)
  | tk :: rest =>
      r <- loop_body st tk ;;
      if snd r then Ok (fst r, Terminate) else decode_path rest (fst r)
  end.

End Loop.

(** The same loop with the float subtraction of the scripts, together with
    what it measures: the interval a pass closes (the [signal_duration] it
    computes, with the colour of the closed run), the intervals measured in
    a run, which ends at the pass that reaches [break] or raises, and the
    ticks read in that run. *)
Section FloatLoop.

Variable F : FloatOps.
Variable obstacle_nearby : Tick -> bool.
Variable interpret : Q -> State -> result State.
Variable gap : string.

Definition on_change_float (st : State) (tk : Tick) (detected_color : Z) : result State :=
  st1 <- (if decodable (last_detected_color st)
          then
            let signal_duration := fsub F (t_read tk) (signal_start_time st) in
            st' <- interpret signal_duration st ;;
            Ok (set_start st' (t_reset tk))
          else Ok st) ;;
  Ok (set_last st1 detected_color).

Definition loop_body_float (st : State) (tk : Tick) : result (State * bool) :=
  let detected_color := alias_color (sensor_color tk) in
  st1 <- (if color_changed detected_color (last_detected_color st)
          then on_change_float st tk detected_color
          else Ok st) ;;
  Ok (st1, obstacle_nearby tk || message_ended gap st1).

Fixpoint decode_path_float (ticks : list Tick) (st : State) : result (State * outcome) :=
  match ticks with
  | [] => Ok (st, Continue)
  | tk :: rest =>
      r <- loop_body_float st tk ;;
      if snd r then Ok (fst r, Terminate) else decode_path_float rest (fst r)
  end.

Definition measured_in_pass (st : State) (tk : Tick) : list (Z * Q) :=
  if color_changed (alias_color (sensor_color tk)) (last_detected_color st)
  then match last_detected_color st with
       | Some l =>
           if decodable (Some l)
           then [(l, fsub F (t_read tk) (signal_start_time st))]
           else []
       | None => []
       end
  else [].

Fixpoint measured (ticks : list Tick) (st : State) : list (Z * Q) :=
  match ticks with
  | [] => []
  | tk :: rest =>
      (measured_in_pass st tk
       ++ match loop_body_float st tk with
          | Ok (st1, false) => measured rest st1
          | _ => []
          end)%list
  end.

Fixpoint ticks_read (ticks : list Tick) (st : State) : list Tick :=
  match ticks with
  | [] => []
  | tk :: rest =>
      tk :: match loop_body_float st tk with
            | Ok (st1, false) => ticks_read rest st1
            | _ => []
            end
  end.

End FloatLoop.

(** ** First script: Dual_sensor_follower_GearsBot *)

Module V1.

(** [self.code_symbols] *)
Definition dot := ".".
Definition dash := "-".
Definition gap := " ".

(** [self.obstacle_detector.distance_centimeters < 10] *)
Definition obstacle_nearby (tk : Tick) : bool := Qltb (obstacle_reading tk) 10.

(** The white branch. *)
Definition interpret_white (signal_duration : Q) (st : State) : result State :=
  match first_signal_duration st with
  | None => Ok (set_first st signal_duration)
  | Some u =>
      if Qeq_bool u 0 then Raise ZeroDivisionError
      else Ok (emit st (str_mul gap (round (signal_duration / u))))
  end.

(** The red branch. *)
Definition interpret_red (signal_duration : Q) (st : State) : result State :=
  u <- unit_of st ;;
  if Qltb signal_duration (1 * u) then Ok (emit st dot) else Ok (emit st dash).

(** The [if ... == 6: ... elif ... == 5: ...] block; it is entered only
    with a last colour of 5 or 6. *)
Definition interpret (signal_duration : Q) (st : State) : result State :=
  match last_detected_color st with
  | Some l =>
      if (l =? WHITE)%Z then interpret_white signal_duration st
      else if (l =? RED)%Z then interpret_red signal_duration st
      else Ok st
  | None => Ok st
  end.

Definition loop_body := loop_body obstacle_nearby interpret gap.
Definition decode_path := decode_path obstacle_nearby interpret gap.
Definition termination_check := termination_check gap.

Definition decode_word (word : string) : string :=
  fold_left (fun decoded_word symbol =>
               decoded_word ++ dict_get morse_to_alpha_numeric symbol "")
            (split word gap) "".

Definition translate_to_text (morse_code_message : string) : string :=
  strip (fold_left (fun text_message word => text_message ++ (decode_word word ++ " "))
                   (split morse_code_message (str_mul gap 3)) "").

(** [display_results]: the text handed to the speaker and printed. *)
Definition display_results (st : State) : string :=
  translate_to_text (strip (decoded_message st)).

(** The interpretation block with the float operations of the script: the
    quotient is the float quotient, and [round] raises [OverflowError] when
    it is infinite. *)
Definition interpret_white_float (F : FloatOps) (signal_duration : Q) (st : State)
  : result State :=
  match first_signal_duration st with
  | None => Ok (set_first st signal_duration)
  | Some u =>
      if Qeq_bool u 0 then Raise ZeroDivisionError
      else match fdiv F signal_duration u with
           | None => Raise OverflowError
           | Some q => Ok (emit st (str_mul gap (round q)))
           end
  end.

Definition interpret_red_float (F : FloatOps) (signal_duration : Q) (st : State)
  : result State :=
  u <- unit_of st ;;
  if Qltb signal_duration (fmul F 1 u) then Ok (emit st dot) else Ok (emit st dash).

Definition interpret_float (F : FloatOps) (signal_duration : Q) (st : State)
  : result State :=
  match last_detected_color st with
  | Some l =>
      if (l =? WHITE)%Z then interpret_white_float F signal_duration st
      else if (l =? RED)%Z then interpret_red_float F signal_duration st
      else Ok st
  | None => Ok st
  end.

Definition loop_body_float (F : FloatOps) :=
  loop_body_float F obstacle_nearby (interpret_float F) gap.
Definition decode_path_float (F : FloatOps) :=
  decode_path_float F obstacle_nearby (interpret_float F) gap.
Definition measured (F : FloatOps) :=
  measured F obstacle_nearby (interpret_float F) gap.
Definition ticks_read (F : FloatOps) :=
  ticks_read F obstacle_nearby (interpret_float F) gap.

(** [adjust_heading]: the speeds, in percent, given to the left and to the
    right motor. The parameter [color] is not used; the method reads the
    path and the line sensor itself. *)
Definition adjust_heading (color path_color line_color : Z) : Q * Q :=
  let base_speed_left := 25 in
  let base_speed_right := 251 # 10 in
  let base_speed_right :=
    if (path_color =? 3)%Z then base_speed_right + 1 else base_speed_right in
  let base_speed_left :=
    if (line_color =? 1)%Z then base_speed_left + 1 else base_speed_left in
  (base_speed_left, base_speed_right).

End V1.

(** ** Second script: Morse_Code_Robot *)

Module V2.

(** [self.morse_code] *)
Definition dot := ".".
Definition dash := "-".
Definition gap := " ".
Definition word_gap := "|".

(** [self.obstacle_detector.proximity < 5] *)
Definition obstacle_nearby (tk : Tick) : bool := Qltb (obstacle_reading tk) 5.

Definition is_color (st : State) (c : Z) : bool :=
  match last_detected_color st with
  | Some l => (l =? c)%Z
  | None => false
  end.

(** The four consecutive [if] statements that follow the measurement. *)
Definition interpret (signal_duration : Q) (st : State) : result State :=
  let st1 :=
    if is_color st WHITE
    then match first_signal_duration st with
         | None => set_first st signal_duration
         | Some _ => st
         end
    else st in
  st2 <- (if is_color st1 RED
          then
            u <- unit_of st1 ;;
            if Qltb signal_duration ((2 # 10) * u) then Ok (emit st1 dot)
            else if Qltb ((2 # 10) * u) signal_duration then Ok (emit st1 dash)
            else Ok st1
          else Ok st1) ;;
  st3 <- (if is_color st2 WHITE
          then
            u <- unit_of st2 ;;
            if Qltb ((2 # 10) * u) signal_duration
               && Qltb signal_duration ((5 # 10) * u)
            then Ok (emit st2 gap)
            else Ok st2
          else Ok st2) ;;
  u <- unit_of st3 ;;
  if Qltb ((5 # 10) * u) signal_duration then Ok (emit st3 word_gap) else Ok st3.

Definition loop_body := loop_body obstacle_nearby interpret gap.
Definition decode_path := decode_path obstacle_nearby interpret gap.
Definition termination_check := termination_check gap.

Definition decode_word (word : string) : string :=
  fold_left (fun decoded_word symbol =>
               decoded_word ++ dict_get morse_to_alpha_numeric symbol "")
            (split word gap) "".

Definition translate_to_text (morse_code_message : string) : string :=
  strip (fold_left (fun text_message word => text_message ++ (decode_word word ++ " "))
                   (split morse_code_message word_gap) "").

Definition display_results (st : State) : string :=
  translate_to_text (decoded_message st).

(** The four [if] statements with the float products of the script. *)
Definition interpret_float (F : FloatOps) (signal_duration : Q) (st : State)
  : result State :=
  let st1 :=
    if is_color st WHITE
    then match first_signal_duration st with
         | None => set_first st signal_duration
         | Some _ => st
         end
    else st in
  st2 <- (if is_color st1 RED
          then
            u <- unit_of st1 ;;
            if Qltb signal_duration (fmul F lit_0_2 u) then Ok (emit st1 dot)
            else if Qltb (fmul F lit_0_2 u) signal_duration then Ok (emit st1 dash)
            else Ok st1
          else Ok st1) ;;
  st3 <- (if is_color st2 WHITE
          then
            u <- unit_of st2 ;;
            if Qltb (fmul F lit_0_2 u) signal_duration
               && Qltb signal_duration (fmul F lit_0_5 u)
            then Ok (emit st2 gap)
            else Ok st2
          else Ok st2) ;;
  u <- unit_of st3 ;;
  if Qltb (fmul F lit_0_5 u) signal_duration then Ok (emit st3 word_gap) else Ok st3.

Definition loop_body_float (F : FloatOps) :=
  loop_body_float F obstacle_nearby (interpret_float F) gap.
Definition decode_path_float (F : FloatOps) :=
  decode_path_float F obstacle_nearby (interpret_float F) gap.
Definition measured (F : FloatOps) :=
  measured F obstacle_nearby (interpret_float F) gap.
Definition ticks_read (F : FloatOps) :=
  ticks_read F obstacle_nearby (interpret_float F) gap.

(** [adjust_heading], as in the first script with other speeds. *)
Definition adjust_heading (color path_color line_color : Z) : Q * Q :=
  let base_speed_left := 17 in
  let base_speed_right := 175 # 10 in
  let base_speed_right :=
    if (path_color =? 3)%Z then base_speed_right + 1 else base_speed_right in
  let base_speed_left :=
    if (line_color =? 1)%Z then base_speed_left + (15 # 10) else base_speed_left in
  (base_speed_left, base_speed_right).

(** [spoken_morse] of [display_results]: three replacements in a row. *)
Definition spoken_morse (decoded_message : string) : string :=
  replace (replace (replace decoded_message "." " dot ") "-" " dash ")
          "|" " word gap ".

End V2.

(** ** The segmenter of the specification

    The pair the specification's segmenter keeps, the colour of the run
    under the sensor and the time the timer was last restarted, fed with
    the ticks of the loop and with exact subtraction. It goes through all
    the ticks it is given; what the loop itself measures, up to the pass at
    which it stops, is [measured]. *)

Record Interval : Type := mkInterval {
  color : Z;
  duration : Q
}.

Record Segmenter : Type := mkSegmenter {
  current_color : option Z;
  interval_start : Q
}.

Definition segmenter_of (st : State) : Segmenter :=
  {| current_color := last_detected_color st;
     interval_start := signal_start_time st |}.

(** The interval measured in a pass, if any, and the segmenter after it. *)
Definition observe (sg : Segmenter) (tk : Tick) : option Interval * Segmenter :=
  let detected_color := alias_color (sensor_color tk) in
  if color_changed detected_color (current_color sg)
  then
    match current_color sg with
    | Some l =>
        if decodable (Some l)
        then (Some (mkInterval l (t_read tk - interval_start sg)),
              mkSegmenter (Some detected_color) (t_reset tk))
        else (None, mkSegmenter (Some detected_color) (interval_start sg))
    | None => (None, mkSegmenter (Some detected_color) (interval_start sg))
    end
  else (None, sg).

Fixpoint segment (sg : Segmenter) (ticks : list Tick) : list Interval * Segmenter :=
  match ticks with
  | [] => ([], sg)
  | tk :: rest =>
      let (iv, sg') := observe sg tk in
      let (ivs, sg'') := segment sg' rest in
      (match iv with Some i => i :: ivs | None => ivs end, sg'')
  end.

Definition intervals (sg : Segmenter) (ticks : list Tick) : list Interval :=
  fst (segment sg ticks).

(** A sample as the specification has it: a colour and one timestamp, which
    both clock reads of the pass return; the obstacle sensor reports nothing
    in reach. *)
Record ColorSample : Type := mkSample {
  sample_color : Z;
  timestamp : Q
}.

Definition tick_of_sample (s : ColorSample) : Tick :=
  {| sensor_color := sample_color s;
     obstacle_reading := 255;
     t_read := timestamp s;
     t_reset := timestamp s |}.

(** The colours the loop sees, pass by pass. *)
Definition colors_of (ticks : list Tick) : list Z :=
  map (fun tk => alias_color (sensor_color tk)) ticks.

(** ** Notions taken from the specification's wording *)

(** The colours of the maximal runs of identical consecutive colours. *)
Fixpoint run_colors (cs : list Z) : list Z :=
  match cs with
  | [] => []
  | c :: rest =>
      match rest with
      | [] => [c]
      | c' :: _ => if (c =? c')%Z then run_colors rest else c :: run_colors rest
      end
  end.

(** The runs that are closed: all but the last one, which is still open. *)
Definition closed_runs (cs : list Z) : list Z := removelast (run_colors cs).

Definition is_signal (c : Z) : bool := (c =? RED)%Z || (c =? WHITE)%Z.

(** Length of the run of SymbolGap characters that ends the message. *)
Fixpoint trailing_gaps (s : string) : nat :=
  match s with
  | EmptyString => 0
  | String c rest =>
      if Ascii.eqb c " " && (trailing_gaps rest =? String.length rest)%nat
      then S (trailing_gaps rest)
      else trailing_gaps rest
  end.

(** The translator as the specification words it: words at the word
    separator, letter codes at the letter separator, each code through the
    table with the empty string for an unknown one, letters concatenated,
    words joined by one space, the result trimmed. *)
Definition letter_of (code : string) : string :=
  dict_get morse_to_alpha_numeric code "".

Definition translate_spec (word_sep letter_sep symbols : string) : string :=
  strip (String.concat " "
           (map (fun word => String.concat "" (map letter_of (split word letter_sep)))
                (split symbols word_sep))).

(** The calibration discipline of a loop: a pass keeps a unit duration that
    is set; a pass that sets it closes a white interval and takes that
    interval's duration; a pass that closes a white interval while it is
    unset does set it; and a whole run keeps it once set. *)
Definition calibrates_once_on_white
           (body : State -> Tick -> result (State * bool))
           (run : list Tick -> State -> result (State * outcome)) : Prop :=
  (forall st tk st' b u,
      body st tk = Ok (st', b) ->
      first_signal_duration st = Some u -> first_signal_duration st' = Some u)
  /\ (forall st tk st' b u,
         body st tk = Ok (st', b) ->
         first_signal_duration st = None -> first_signal_duration st' = Some u ->
         last_detected_color st = Some WHITE
         /\ color_changed (alias_color (sensor_color tk)) (Some WHITE) = true
         /\ u = t_read tk - signal_start_time st)
  /\ (forall st tk,
         last_detected_color st = Some WHITE -> first_signal_duration st = None ->
         color_changed (alias_color (sensor_color tk)) (Some WHITE) = true ->
         exists st' b,
           body st tk = Ok (st', b)
           /\ first_signal_duration st' = Some (t_read tk - signal_start_time st))
  /\ (forall ticks st st' o u,
         run ticks st = Ok (st', o) ->
         first_signal_duration st = Some u -> first_signal_duration st' = Some u).

(** ** Notions used to state further properties of the scripts *)

(** Whether a character is one of those of [allowed]. *)
Fixpoint char_in (c : ascii) (allowed : string) : bool :=
  match allowed with
  | EmptyString => false
  | String a rest => Ascii.eqb a c || char_in c rest
  end.

(** Whether a string is made of characters of [allowed] only. *)
Fixpoint all_in (allowed s : string) : bool :=
  match s with
  | EmptyString => true
  | String c rest => char_in c allowed && all_in allowed rest
  end.

(** Replacing each character on its own: [c] by [new], any other by itself. *)
Fixpoint subst_char (c : ascii) (new s : string) : string :=
  match s with
  | EmptyString => ""
  | String a rest =>
      (if Ascii.eqb a c then new else String a "") ++ subst_char c new rest
  end.

(** How one character of the decoded message is spoken. *)
Definition spoken_char (a : ascii) : string :=
  if Ascii.eqb a "." then " dot "
  else if Ascii.eqb a "-" then " dash "
  else if Ascii.eqb a "|" then " word gap "
  else String a "".

Fixpoint spoken (s : string) : string :=
  match s with
  | EmptyString => ""
  | String a rest => spoken_char a ++ spoken rest
  end.

(** A word of the first script's message: every gap is followed by a
    character that is not a gap, so the word neither ends in a gap nor holds
    two gaps in a row. *)
Fixpoint tight (w : string) : bool :=
  match w with
  | EmptyString => true
  | String a rest =>
      if Ascii.eqb a " "
      then match rest with
           | EmptyString => false
           | String b _ => negb (Ascii.eqb b " ") && tight rest
           end
      else tight rest
  end.

(** The message that spells [words], each word a list of letter codes:
    codes joined by [letter_sep], words joined by [word_sep]. *)
Definition message_of (word_sep letter_sep : string) (words : list (list string)) : string :=
  String.concat word_sep (map (String.concat letter_sep) words).

(** The text of [words]: the letters of each word, the words one space
    apart. *)
Definition text_of (words : list (list string)) : string :=
  String.concat " " (map (fun w => String.concat "" (map letter_of w)) words).

(** The tick an adapter would deliver that maps yellow and brown to red
    before the loop sees the colour. *)
Definition pre_alias (tk : Tick) : Tick :=
  {| sensor_color := alias_color (sensor_color tk);
     obstacle_reading := obstacle_reading tk;
     t_read := t_read tk;
     t_reset := t_reset tk |}.

(** ** The translator as the specification words it

    Every notion is defined here on its own, not through the functions the
    scripts call. *)

(** [drop n s]: [s] without its first [n] characters. *)
Fixpoint drop (n : nat) (s : string) : string :=
  match n, s with
  | O, _ => s
  | S _, EmptyString => ""
  | S k, String _ rest => drop k rest
  end.

(** The leftmost boundary: what stands before the first occurrence of
    [sep] in [s] and what stands after it, if [sep] occurs. *)
Fixpoint cut (sep s : string) : option (string * string) :=
  if String.prefix sep s then Some ("", drop (String.length sep) s)
  else match s with
       | EmptyString => None
       | String c rest =>
           match cut sep rest with
           | Some (before, after) => Some (String c before, after)
           | None => None
           end
       end.

(** The pieces of [s] between the boundaries, boundary after boundary from
    the left; [fuel] bounds the number of boundaries. *)
Fixpoint pieces (fuel : nat) (sep s : string) : list string :=
  match fuel with
  | O => [s]
  | S k =>
      match cut sep s with
      | None => [s]
      | Some (before, after) => before :: pieces k sep after
      end
  end.

Definition split_at (sep s : string) : list string :=
  pieces (String.length s) sep s.

(** The whitespace characters, one by one: tab, line feed, vertical tab,
    form feed, carriage return, the four separators 28 to 31, the space,
    next line and the no-break space. *)
Definition whitespace : list ascii :=
  map ascii_of_nat [9; 10; 11; 12; 13; 28; 29; 30; 31; 32; 133; 160]%nat.

Definition is_whitespace (c : ascii) : bool := existsb (Ascii.eqb c) whitespace.

Fixpoint drop_whitespace (l : list ascii) : list ascii :=
  match l with
  | [] => []
  | c :: rest => if is_whitespace c then drop_whitespace rest else l
  end.

(** Trimming: the whitespace at the start is dropped, then, on the reversed
    string, the whitespace at the end. *)
Definition trim (s : string) : string :=
  string_of_list_ascii
    (rev (drop_whitespace (rev (drop_whitespace (list_ascii_of_string s))))).

(** The letter of a code: that of the first entry of the table with this
    code, the empty string when there is none. *)
Definition code_letter (code : string) : string :=
  match find (fun entry => String.eqb (fst entry) code) morse_to_alpha_numeric with
  | Some entry => snd entry
  | None => ""
  end.

Definition translate_by_boundaries (word_sep letter_sep symbols : string) : string :=
  trim (String.concat " "
          (map (fun word => String.concat "" (map code_letter (split_at letter_sep word)))
               (split_at word_sep symbols))).

(** ** The segmenter as the specification words it, on the loop's clock

    On a change of colour the run that ends yields its colour and the time
    from the start of the timer to the first clock read of the pass, and
    the timer restarts at the second clock read; but only a run of red or
    white does so: a run of another colour yields nothing and leaves the
    timer running. Nothing is yielded before a first colour is held. *)
Fixpoint timed_runs (F : FloatOps) (current : option Z) (start : Q) (ticks : list Tick)
  : list (Z * Q) :=
  match ticks with
  | [] => []
  | tk :: rest =>
      let c := alias_color (sensor_color tk) in
      match current with
      | None => timed_runs F (Some c) start rest
      | Some l =>
          if (l =? c)%Z then timed_runs F current start rest
          else if is_signal l
               then (l, fsub F (t_read tk) start) :: timed_runs F (Some c) (t_reset tk) rest
               else timed_runs F (Some c) start rest
      end
  end.

(** The colour held before a stream is read, if any, as a one-run list. *)
Definition held (st : State) : list Z :=
  match last_detected_color st with
  | Some l => [l]
  | None => []
  end.

Definition sum_durations (ivs : list (Z * Q)) : Q :=
  fold_right (fun iv acc => snd iv + acc) 0 ivs.

(** ** The symbols of a measured interval

    What one measured interval stands for in the message of a session whose
    unit duration is [u]: in the first script gaps for a white interval,
    as many as the rounded float quotient, and a dot or a dash for a red
    one; in the second a mark for a red interval, a gap for a white one, and
    the word-gap character after either. *)
Definition V1_symbols (F : FloatOps) (u : Q) (iv : Z * Q) : string :=
  if (fst iv =? WHITE)%Z
  then match fdiv F (snd iv) u with
       | Some q => str_mul " " (round q)
       | None => ""
       end
  else if (fst iv =? RED)%Z then (if Qltb (snd iv) (fmul F 1 u) then "." else "-")
  else "".

Definition V2_symbols (F : FloatOps) (u : Q) (iv : Z * Q) : string :=
  (if (fst iv =? RED)%Z
   then (if Qltb (snd iv) (fmul F lit_0_2 u) then "."
         else if Qltb (fmul F lit_0_2 u) (snd iv) then "-" else "")
   else "")
  ++ (if (fst iv =? WHITE)%Z
      then (if Qltb (fmul F lit_0_2 u) (snd iv) && Qltb (snd iv) (fmul F lit_0_5 u)
            then " " else "")
      else "")
  ++ (if Qltb (fmul F lit_0_5 u) (snd iv) then "|" else "").

Definition spelled (symbols : Z * Q -> string) (ivs : list (Z * Q)) : string :=
  String.concat "" (map symbols ivs).

(** A measured interval on which the first script raises [OverflowError]:
    a white one whose float quotient by the unit duration is infinite. *)
Definition overflows (F : FloatOps) (u : Q) (iv : Z * Q) : bool :=
  (fst iv =? WHITE)%Z
  && match fdiv F (snd iv) u with
     | Some _ => false
     | None => true
     end.

(** Proving a list of closed terms free of duplicates. *)
Ltac all_distinct :=
  repeat (constructor;
          [ let H := fresh in
            simpl; intros H; repeat (destruct H as [H | H]; [discriminate H|]); exact H
          | ]);
  constructor.

(** Case analysis on every test met in a hypothesis. *)
Ltac split_ifs :=
  repeat match goal with
         | H : context [if ?b then _ else _] |- _ => destruct b eqn:?; cbn in H
         end.

(** ** Arithmetic of the comparisons and of [round] *)

Lemma Qltb_lt (x y : Q) : Qltb x y = true <-> x < y.
Proof.
  unfold Qltb. rewrite negb_true_iff. split.
  - intros H. apply Qnot_le_lt. intros Hle.
    apply Qle_bool_iff in Hle. congruence.
  - intros H. destruct (Qle_bool y x) eqn:E; [|reflexivity].
    apply Qle_bool_iff in E. exfalso. apply (Qlt_not_le _ _ H E).
Qed.

Lemma Qltb_ge (x y : Q) : Qltb x y = false <-> y <= x.
Proof.
  unfold Qltb. rewrite negb_false_iff. apply Qle_bool_iff.
Qed.

Lemma round_near (x : Q) :
  inject_Z (round x) - (1 # 2) <= x /\ x <= inject_Z (round x) + (1 # 2).
Proof.
  pose proof (Qfloor_le x) as Hlo. pose proof (Qlt_floor x) as Hhi.
  rewrite inject_Z_plus in Hhi. change (inject_Z 1) with 1 in Hhi.
  unfold round.
  destruct (Qltb (x - inject_Z (Qfloor x)) (1 # 2)) eqn:E1.
  { apply Qltb_lt in E1. split; lra. }
  apply Qltb_ge in E1.
  assert (Hup : inject_Z (Qfloor x + 1) - (1 # 2) <= x
                /\ x <= inject_Z (Qfloor x + 1) + (1 # 2)).
  { rewrite inject_Z_plus. change (inject_Z 1) with 1. split; lra. }
  destruct (Qltb (1 # 2) (x - inject_Z (Qfloor x))) eqn:E2; [exact Hup|].
  apply Qltb_ge in E2.
  destruct (Z.even (Qfloor x)); [split; lra | exact Hup].
Qed.

Lemma round_nonpos (x : Q) : x <= 0 -> (round x <= 0)%Z.
Proof.
  intros Hx. destruct (round_near x) as [Hlo _].
  assert (H : inject_Z (round x) < inject_Z 1).
  { change (inject_Z 1) with 1. lra. }
  rewrite <- Zlt_Qlt in H. lia.
Qed.

Lemma round_below_half (x : Q) : x < 1 # 2 -> (round x <= 0)%Z.
Proof.
  intros Hx. destruct (round_near x) as [Hlo _].
  assert (H : inject_Z (round x) < inject_Z 1).
  { change (inject_Z 1) with 1. lra. }
  rewrite <- Zlt_Qlt in H. lia.
Qed.

Lemma round_at_least (x : Q) (n : Z) :
  inject_Z n - (1 # 2) < x -> (n <= round x)%Z.
Proof.
  intros Hx. destruct (round_near x) as [_ Hhi].
  assert (H : inject_Z (n + -1) < inject_Z (round x)).
  { rewrite inject_Z_plus. change (inject_Z (-1)) with (-1 # 1). lra. }
  rewrite <- Zlt_Qlt in H. lia.
Qed.

Lemma round_at_most (x : Q) (n : Z) :
  x < inject_Z n + (1 # 2) -> (round x <= n)%Z.
Proof.
  intros Hx. destruct (round_near x) as [Hlo _].
  assert (H : inject_Z (round x) < inject_Z (n + 1)).
  { rewrite inject_Z_plus. change (inject_Z 1) with 1. lra. }
  rewrite <- Zlt_Qlt in H. lia.
Qed.

(** ** Strings *)

Lemma append_nil_r (s : string) : s ++ "" = s.
Proof. induction s as [|c s IH]; simpl; [reflexivity | now rewrite IH]. Qed.

Lemma append_assoc (s1 s2 s3 : string) : (s1 ++ s2) ++ s3 = s1 ++ (s2 ++ s3).
Proof. induction s1 as [|c s1 IH]; simpl; [reflexivity | now rewrite IH]. Qed.

Lemma str_mul_nonpos (s : string) (n : Z) : (n <= 0)%Z -> str_mul s n = "".
Proof.
  intros Hn. unfold str_mul.
  replace (Z.to_nat n) with 0%nat by lia. reflexivity.
Qed.

Lemma rstrip_app_space (s : string) : rstrip (s ++ " ") = rstrip s.
Proof.
  induction s as [|c s IH]; simpl; [reflexivity | now rewrite IH].
Qed.

Lemma lstrip_app_space (s : string) :
  (lstrip s = "" /\ lstrip (s ++ " ") = "") \/ lstrip (s ++ " ") = lstrip s ++ " ".
Proof.
  induction s as [|c s IH]; simpl.
  - left. split; reflexivity.
  - destruct (isspace c); [exact IH | right; reflexivity].
Qed.

Lemma strip_app_space (s : string) : strip (s ++ " ") = strip s.
Proof.
  unfold strip. destruct (lstrip_app_space s) as [[H1 H2] | H].
  - now rewrite H1, H2.
  - rewrite H. apply rstrip_app_space.
Qed.

Lemma split_from_not_nil (sep : string) (s cur : string) (skip : nat) :
  split_from sep skip cur s <> [].
Proof.
  revert skip cur. induction s as [|c s IH]; intros skip cur; simpl.
  - discriminate.
  - destruct skip as [|k]; [|apply IH].
    match goal with |- (if ?b then _ else _) <> _ => destruct b end;
      [discriminate | apply IH].
Qed.

(** ** The translator's two loops as a join *)

Section Accumulate.

Variable A : Type.
Variable f : A -> string.

Lemma fold_append_concat (l : list A) (acc : string) :
  fold_left (fun a x => a ++ f x) l acc = acc ++ String.concat "" (map f l).
Proof.
  revert acc. induction l as [|x l IH]; intros acc; simpl.
  - now rewrite append_nil_r.
  - rewrite IH. rewrite append_assoc. f_equal.
    destruct l as [|y l]; simpl; [now rewrite append_nil_r | reflexivity].
Qed.

Lemma fold_append_join (l : list A) (acc : string) :
  l <> [] ->
  fold_left (fun a x => a ++ (f x ++ " ")) l acc
  = acc ++ (String.concat " " (map f l) ++ " ").
Proof.
  revert acc. induction l as [|x l IH]; intros acc Hne; [congruence|].
  destruct l as [|y l].
  - reflexivity.
  - change (fold_left (fun a x0 => a ++ (f x0 ++ " ")) (x :: y :: l) acc)
      with (fold_left (fun a x0 => a ++ (f x0 ++ " ")) (y :: l) (acc ++ (f x ++ " "))).
    rewrite IH by discriminate.
    change (String.concat " " (map f (x :: y :: l)))
      with (f x ++ " " ++ String.concat " " (map f (y :: l))).
    now rewrite !append_assoc.
Qed.

End Accumulate.

Lemma decode_word_concat (sep word : string) :
  fold_left (fun decoded_word symbol =>
               decoded_word ++ dict_get morse_to_alpha_numeric symbol "")
            (split word sep) ""
  = String.concat "" (map letter_of (split word sep)).
Proof.
  rewrite (fold_append_concat _ letter_of). reflexivity.
Qed.

Lemma translate_as_join (decode : string -> string) (words : list string) :
  words <> [] ->
  strip (fold_left (fun text_message word => text_message ++ (decode word ++ " "))
                   words "")
  = strip (String.concat " " (map decode words)).
Proof.
  intros Hne. rewrite (fold_append_join _ decode) by exact Hne.
  simpl. apply strip_app_space.
Qed.

Lemma dict_get_unknown (d : list (string * string)) (key default : string) :
  (forall v, ~ In (key, v) d) -> dict_get d key default = default.
Proof.
  induction d as [|[k v] d IH]; intros Hnot; simpl; [reflexivity|].
  destruct (String.eqb_spec k key) as [->|Hne].
  - exfalso. apply (Hnot v). left. reflexivity.
  - apply IH. intros v' Hin. apply (Hnot v'). right. exact Hin.
Qed.

(** ** The end-of-message test *)

Lemma trailing_gaps_le (s : string) : (trailing_gaps s <= String.length s)%nat.
Proof.
  induction s as [|c s IH]; simpl; [lia|].
  destruct (Ascii.eqb c " " && (trailing_gaps s =? String.length s)%nat); lia.
Qed.

Lemma gaps_shape (n : nat) :
  trailing_gaps (repeat_nat " " n) = n /\ String.length (repeat_nat " " n) = n.
Proof.
  induction n as [|n [IHt IHl]]; simpl; [split; reflexivity|].
  rewrite IHt, IHl, Nat.eqb_refl. simpl. split; reflexivity.
Qed.

Lemma all_gaps (s : string) :
  trailing_gaps s = String.length s -> s = repeat_nat " " (String.length s).
Proof.
  induction s as [|c s IH]; simpl; [reflexivity|].
  pose proof (trailing_gaps_le s) as Hle.
  destruct (Ascii.eqb_spec c " ") as [->|Hc]; simpl.
  - destruct (Nat.eqb_spec (trailing_gaps s) (String.length s)) as [He|Hne].
    + intros _. now rewrite <- IH.
    + intros H. lia.
  - intros H. lia.
Qed.

Lemma endswith_gaps (s : string) (n : nat) :
  endswith s (repeat_nat " " n) = true <-> (n <= trailing_gaps s)%nat.
Proof.
  induction s as [|c s IH].
  - simpl. destruct n as [|n]; simpl; split; intros H;
      try reflexivity; try discriminate; lia.
  - cbn [endswith]. rewrite orb_true_iff, IH, String.eqb_eq.
    pose proof (trailing_gaps_le s) as Hle.
    destruct (gaps_shape n) as [Ht Hl].
    cbn [trailing_gaps].
    destruct (Ascii.eqb_spec c " ") as [->|Hc]; cbn [andb].
    + destruct (Nat.eqb_spec (trailing_gaps s) (String.length s)) as [He|Hne].
      * split.
        -- intros [H | H]; [|lia].
           apply (f_equal String.length) in H. rewrite Hl in H. simpl in H. lia.
        -- intros H. destruct (Nat.eq_dec n (S (String.length s))) as [->|Hn].
           ++ left. simpl. now rewrite <- (all_gaps s He).
           ++ right. lia.
      * split; [|intros H; right; exact H].
        intros [H | H]; [|exact H]. exfalso. apply Hne.
        destruct n as [|n]; [discriminate|].
        simpl in H. injection H as H. rewrite H.
        destruct (gaps_shape n) as [Ht' Hl']. now rewrite Ht', Hl'.
    + split; [|intros H; right; exact H].
      intros [H | H]; [|exact H]. exfalso.
      destruct n as [|n]; [discriminate|].
      simpl in H. injection H as H1 H2. apply Hc. exact H1.
Qed.

Lemma message_ended_iff (st : State) :
  message_ended " " st = true <-> (7 <= trailing_gaps (decoded_message st))%nat.
Proof. unfold message_ended. apply (endswith_gaps _ 7). Qed.

(** C4. The end-of-message test of the loop answers [Terminate] exactly when
    the run of gap characters that ends the decoded message has length 7 or
    more, and [Continue] otherwise; a pass of the loop reaches [break]
    exactly when that test says [Terminate] or the obstacle sensor fires, so
    once a pass leaves the message ending in seven gaps the loop stops there
    and reads no further tick. *)
Theorem C4_terminate_iff_seven_trailing_gaps (st : State) (tk : Tick) (rest : list Tick) :
  (V1.termination_check st = Terminate <-> (7 <= trailing_gaps (decoded_message st))%nat)
  /\ (V1.termination_check st = Continue <-> (trailing_gaps (decoded_message st) < 7)%nat)
  /\ (V2.termination_check st = Terminate <-> (7 <= trailing_gaps (decoded_message st))%nat)
  /\ (V2.termination_check st = Continue <-> (trailing_gaps (decoded_message st) < 7)%nat)
  /\ (forall st' b, V1.loop_body st tk = Ok (st', b) ->
        (b = true <-> V1.obstacle_nearby tk = true \/ V1.termination_check st' = Terminate)
        /\ (V1.termination_check st' = Terminate ->
            V1.decode_path (tk :: rest) st = Ok (st', Terminate)))
  /\ (forall st' b, V2.loop_body st tk = Ok (st', b) ->
        (b = true <-> V2.obstacle_nearby tk = true \/ V2.termination_check st' = Terminate)
        /\ (V2.termination_check st' = Terminate ->
            V2.decode_path (tk :: rest) st = Ok (st', Terminate))).
Proof.
  assert (Hcheck : forall s, (termination_check " " s = Terminate
                              <-> (7 <= trailing_gaps (decoded_message s))%nat)
                             /\ (termination_check " " s = Continue
                                 <-> (trailing_gaps (decoded_message s) < 7)%nat)).
  { intros s. pose proof (message_ended_iff s) as H. unfold termination_check.
    destruct (message_ended " " s).
    - split; split; intros H'; try reflexivity; try discriminate.
      + apply H. reflexivity.
      + assert (7 <= trailing_gaps (decoded_message s))%nat by (apply H; reflexivity). lia.
    - split; split; intros H'; try reflexivity; try discriminate.
      + apply H in H'. discriminate.
      + destruct (le_lt_dec 7 (trailing_gaps (decoded_message s))) as [Hge|Hlt];
          [apply H in Hge; discriminate | exact Hlt]. }
  assert (Hloop : forall obstacle interpret st' b,
             loop_body obstacle interpret " " st tk = Ok (st', b) ->
             (b = true <-> obstacle tk = true \/ termination_check " " st' = Terminate)
             /\ (termination_check " " st' = Terminate ->
                 decode_path obstacle interpret " " (tk :: rest) st = Ok (st', Terminate))).
  { intros obstacle interpret st' b Hbody.
    assert (Hb : b = obstacle tk || message_ended " " st').
    { unfold loop_body in Hbody.
      destruct (if color_changed (alias_color (sensor_color tk)) (last_detected_color st)
                then on_change interpret st tk (alias_color (sensor_color tk))
                else Ok st) as [s1|e]; simpl in Hbody; [|discriminate].
      injection Hbody as <- <-. reflexivity. }
    split.
    - rewrite Hb, orb_true_iff. unfold termination_check.
      destruct (message_ended " " st'); split; intros [H|H]; auto; discriminate.
    - intros Hterm. cbn [decode_path]. rewrite Hbody. cbn [bind snd fst].
      replace b with true; [reflexivity|].
      rewrite Hb. unfold termination_check in Hterm.
      destruct (message_ended " " st'); [now rewrite orb_true_r | discriminate]. }
  repeat split; try apply Hcheck; try (apply (proj1 (Hloop _ _ _ _ H)));
    try (apply (proj2 (Hloop _ _ _ _ H))).
Qed.

(** ** One pass of the loop, case by case *)

Section LoopFacts.

Variable obstacle_nearby : Tick -> bool.
Variable interpret : Q -> State -> result State.
Variable gap : string.

Lemma loop_body_same_color (st : State) (tk : Tick) :
  color_changed (alias_color (sensor_color tk)) (last_detected_color st) = false ->
  loop_body obstacle_nearby interpret gap st tk = Ok (st, obstacle_nearby tk || message_ended gap st).
Proof.
  intros H. unfold loop_body. rewrite H. reflexivity.
Qed.

Lemma loop_body_not_decodable (st : State) (tk : Tick) :
  color_changed (alias_color (sensor_color tk)) (last_detected_color st) = true ->
  decodable (last_detected_color st) = false ->
  loop_body obstacle_nearby interpret gap st tk = Ok (set_last st (alias_color (sensor_color tk)),
                   obstacle_nearby tk
                   || message_ended gap (set_last st (alias_color (sensor_color tk)))).
Proof.
  intros Hc Hd. unfold loop_body, on_change. rewrite Hc, Hd. reflexivity.
Qed.

Lemma loop_body_interval_ok (st st' : State) (tk : Tick) :
  color_changed (alias_color (sensor_color tk)) (last_detected_color st) = true ->
  decodable (last_detected_color st) = true ->
  interpret (t_read tk - signal_start_time st) st = Ok st' ->
  loop_body obstacle_nearby interpret gap st tk
  = Ok (set_last (set_start st' (t_reset tk)) (alias_color (sensor_color tk)),
        obstacle_nearby tk
        || message_ended gap
             (set_last (set_start st' (t_reset tk)) (alias_color (sensor_color tk)))).
Proof.
  intros Hc Hd Hi. unfold loop_body, on_change. rewrite Hc, Hd, Hi. reflexivity.
Qed.

Lemma loop_body_interval_raise (st : State) (tk : Tick) (e : exn) :
  color_changed (alias_color (sensor_color tk)) (last_detected_color st) = true ->
  decodable (last_detected_color st) = true ->
  interpret (t_read tk - signal_start_time st) st = Raise e ->
  loop_body obstacle_nearby interpret gap st tk = Raise e.
Proof.
  intros Hc Hd Hi. unfold loop_body, on_change. rewrite Hc, Hd, Hi. reflexivity.
Qed.

(** What a successful pass can have done to the state. *)
Lemma loop_body_inv (st st' : State) (tk : Tick) (b : bool) :
  loop_body obstacle_nearby interpret gap st tk = Ok (st', b) ->
  (color_changed (alias_color (sensor_color tk)) (last_detected_color st) = false
   /\ st' = st)
  \/ (color_changed (alias_color (sensor_color tk)) (last_detected_color st) = true
      /\ decodable (last_detected_color st) = false
      /\ st' = set_last st (alias_color (sensor_color tk)))
  \/ (color_changed (alias_color (sensor_color tk)) (last_detected_color st) = true
      /\ decodable (last_detected_color st) = true
      /\ exists st1, interpret (t_read tk - signal_start_time st) st = Ok st1
                     /\ st' = set_last (set_start st1 (t_reset tk))
                                       (alias_color (sensor_color tk))).
Proof.
  intros H.
  destruct (color_changed (alias_color (sensor_color tk)) (last_detected_color st)) eqn:Hc.
  - destruct (decodable (last_detected_color st)) eqn:Hd.
    + destruct (interpret (t_read tk - signal_start_time st) st) as [st1|e] eqn:Hi.
      * rewrite (loop_body_interval_ok st st1 tk Hc Hd Hi) in H.
        injection H as <- _. right. right. repeat split. exists st1. split; reflexivity.
      * rewrite (loop_body_interval_raise st tk e Hc Hd Hi) in H.
        discriminate.
    + rewrite (loop_body_not_decodable st tk Hc Hd) in H.
      injection H as <- _. right. left. repeat split.
  - rewrite (loop_body_same_color st tk Hc) in H.
    injection H as <- _. left. split; reflexivity.
Qed.

(** A property of the state that every successful pass keeps is kept by
    every run of the loop. *)
Lemma decode_path_preserves (P : State -> Prop) :
  (forall st tk st' b, P st -> loop_body obstacle_nearby interpret gap st tk = Ok (st', b) -> P st') ->
  forall ticks st st' o,
    P st -> decode_path obstacle_nearby interpret gap ticks st = Ok (st', o) -> P st'.
Proof.
  intros Hstep ticks. induction ticks as [|tk rest IH]; intros st st' o HP Hrun.
  - simpl in Hrun. injection Hrun as <- _. exact HP.
  - cbn [decode_path] in Hrun.
    destruct (loop_body obstacle_nearby interpret gap st tk) as [[s1 b]|e] eqn:Hb; cbn [bind snd fst] in Hrun;
      [|discriminate].
    pose proof (Hstep st tk s1 b HP Hb) as HP1.
    destruct b.
    + injection Hrun as <- _. exact HP1.
    + apply (IH s1 st' o HP1 Hrun).
Qed.

End LoopFacts.

(** ** The interpretation blocks *)

Lemma V1_interpret_red (st : State) (d u : Q) :
  last_detected_color st = Some RED ->
  first_signal_duration st = Some u ->
  V1.interpret d st = Ok (emit st (if Qltb d u then "." else "-")).
Proof.
  intros Hl Hf. unfold V1.interpret, V1.interpret_red, unit_of.
  rewrite Hl, Hf. simpl.
  assert (E : Qltb d (1 * u) = Qltb d u).
  { destruct (Qltb d u) eqn:E.
    - apply Qltb_lt. apply Qltb_lt in E. lra.
    - apply Qltb_ge. apply Qltb_ge in E. lra. }
  rewrite E. destruct (Qltb d u); reflexivity.
Qed.

Lemma V1_interpret_white (st : State) (d u : Q) :
  last_detected_color st = Some WHITE ->
  first_signal_duration st = Some u ->
  ~ u == 0 ->
  V1.interpret d st = Ok (emit st (str_mul " " (round (d / u)))).
Proof.
  intros Hl Hf Hu. unfold V1.interpret, V1.interpret_white.
  rewrite Hl, Hf. simpl.
  destruct (Qeq_bool u 0) eqn:E; [|reflexivity].
  apply Qeq_bool_iff in E. contradiction.
Qed.

Lemma V2_interpret_red (st : State) (d u : Q) :
  last_detected_color st = Some RED ->
  first_signal_duration st = Some u ->
  exists mark tail,
    V2.interpret d st = Ok (emit st (mark ++ tail))
    /\ (d < (2 # 10) * u -> mark = ".")
    /\ ((2 # 10) * u < d -> mark = "-")
    /\ (d == (2 # 10) * u -> mark = "")
    /\ ((5 # 10) * u < d -> tail = "|")
    /\ (d <= (5 # 10) * u -> tail = "").
Proof.
  intros Hl Hf. destruct st as [l s f m]. simpl in Hl, Hf. subst l f.
  unfold V2.interpret, V2.is_color, unit_of, emit. cbn.
  destruct (Qltb d ((2 # 10) * u)) eqn:E1; cbn;
    [|destruct (Qltb ((2 # 10) * u) d) eqn:E2; cbn];
    destruct (Qltb ((5 # 10) * u) d) eqn:E3; cbn;
    repeat match goal with
           | H : Qltb _ _ = true |- _ => apply Qltb_lt in H
           | H : Qltb _ _ = false |- _ => apply Qltb_ge in H
           end.
  - exists ".", "|". rewrite append_assoc. repeat split; intros; try reflexivity; lra.
  - exists ".", "". repeat split; intros; try reflexivity; lra.
  - exists "-", "|". rewrite append_assoc. repeat split; intros; try reflexivity; lra.
  - exists "-", "". repeat split; intros; try reflexivity; lra.
  - exists "", "|". repeat split; intros; try reflexivity; lra.
  - exists "", "". rewrite append_nil_r. repeat split; intros; try reflexivity; lra.
Qed.

Lemma V2_interpret_white (st : State) (d u : Q) :
  last_detected_color st = Some WHITE ->
  first_signal_duration st = Some u ->
  exists sep tail,
    V2.interpret d st = Ok (emit st (sep ++ tail))
    /\ ((2 # 10) * u < d /\ d < (5 # 10) * u -> sep = " ")
    /\ (d <= (2 # 10) * u \/ (5 # 10) * u <= d -> sep = "")
    /\ ((5 # 10) * u < d -> tail = "|")
    /\ (d <= (5 # 10) * u -> tail = "").
Proof.
  intros Hl Hf. destruct st as [l s f m]. simpl in Hl, Hf. subst l f.
  unfold V2.interpret, V2.is_color, unit_of, emit. cbn.
  destruct (Qltb ((2 # 10) * u) d) eqn:E1; cbn;
    destruct (Qltb d ((5 # 10) * u)) eqn:E2; cbn;
    destruct (Qltb ((5 # 10) * u) d) eqn:E3; cbn;
    repeat match goal with
           | H : Qltb _ _ = true |- _ => apply Qltb_lt in H
           | H : Qltb _ _ = false |- _ => apply Qltb_ge in H
           end;
    try (exfalso; lra).
  - exists " ", "". repeat split; intros; try reflexivity; lra.
  - exists "", "|". repeat split; intros; try reflexivity; lra.
  - exists "", "". rewrite append_nil_r. repeat split; intros; try reflexivity; lra.
  - exists "", "". rewrite append_nil_r. repeat split; intros; try reflexivity; lra.
  - exists "", "|". repeat split; intros; try reflexivity; lra.
  - exists "", "". rewrite append_nil_r. repeat split; intros; try reflexivity; lra.
Qed.

Lemma step_emits (obstacle : Tick -> bool) (interpret : Q -> State -> result State)
      (gap : string) (st : State) (tk : Tick) (x : string) :
  color_changed (alias_color (sensor_color tk)) (last_detected_color st) = true ->
  decodable (last_detected_color st) = true ->
  interpret (t_read tk - signal_start_time st) st = Ok (emit st x) ->
  exists st1 b,
    loop_body obstacle interpret gap st tk = Ok (st1, b)
    /\ first_signal_duration st1 = first_signal_duration st
    /\ decoded_message st1 = decoded_message st ++ x
    /\ signal_start_time st1 = t_reset tk
    /\ last_detected_color st1 = Some (alias_color (sensor_color tk)).
Proof.
  intros Hc Hd Hi. eexists. eexists. split.
  - apply (loop_body_interval_ok obstacle interpret gap st _ tk Hc Hd Hi).
  - repeat split; reflexivity.
Qed.

(** C10. In the second script the word-gap test is made for every closed
    interval, so a red interval of a calibrated session that lasted longer
    than half the unit duration makes the pass append a dash and then a
    word-gap character. Durations are taken as the data model has them, not
    negative: it is enough that the unit duration or the interval's own
    duration is not negative. *)
Theorem C10_mark_gets_dash_and_word_gap (st : State) (tk : Tick) (u : Q) :
  last_detected_color st = Some RED ->
  first_signal_duration st = Some u ->
  0 <= u \/ 0 <= t_read tk - signal_start_time st ->
  color_changed (alias_color (sensor_color tk)) (Some RED) = true ->
  (5 # 10) * u < t_read tk - signal_start_time st ->
  exists st2 b,
    V2.loop_body st tk = Ok (st2, b)
    /\ decoded_message st2 = decoded_message st ++ (V2.dash ++ V2.word_gap).
Proof.
  intros Hl Hf Hu Hc Hlong.
  assert (Hc' : color_changed (alias_color (sensor_color tk)) (last_detected_color st) = true)
    by (rewrite Hl; exact Hc).
  assert (Hd : decodable (last_detected_color st) = true) by (rewrite Hl; reflexivity).
  destruct (V2_interpret_red st (t_read tk - signal_start_time st) u Hl Hf)
    as (mark & tail & Hi & _ & Hdash & _ & Htail & _).
  destruct (step_emits V2.obstacle_nearby V2.interpret V2.gap st tk _ Hc' Hd Hi)
    as (st2 & b & Hstep & _ & Hm & _).
  exists st2, b. split; [exact Hstep|].
  rewrite Hm, Hdash, Htail; [reflexivity | exact Hlong | destruct Hu; lra].
Qed.

(** ** What the interpretation blocks leave alone *)

Lemma V1_interpret_frame (d : Q) (st st' : State) :
  V1.interpret d st = Ok st' ->
  last_detected_color st' = last_detected_color st
  /\ signal_start_time st' = signal_start_time st
  /\ (forall u, first_signal_duration st = Some u -> first_signal_duration st' = Some u)
  /\ (first_signal_duration st = None ->
      forall u, first_signal_duration st' = Some u ->
                last_detected_color st = Some WHITE /\ u = d).
Proof.
  destruct st as [[l|] s [u0|] m];
    unfold V1.interpret, V1.interpret_white, V1.interpret_red, unit_of;
    cbn; intros H; split_ifs; try discriminate;
    injection H as <-; cbn; repeat split; intros; try congruence.
  match goal with E : (l =? WHITE)%Z = true |- _ => apply Z.eqb_eq in E; congruence end.
Qed.

Lemma V2_interpret_frame (d : Q) (st st' : State) :
  V2.interpret d st = Ok st' ->
  last_detected_color st' = last_detected_color st
  /\ signal_start_time st' = signal_start_time st
  /\ (forall u, first_signal_duration st = Some u -> first_signal_duration st' = Some u)
  /\ (first_signal_duration st = None ->
      forall u, first_signal_duration st' = Some u ->
                last_detected_color st = Some WHITE /\ u = d).
Proof.
  destruct st as [[l|] s [u0|] m];
    unfold V2.interpret, V2.is_color, unit_of;
    cbn; intros H; split_ifs; try discriminate;
    injection H as <-; cbn; repeat split; intros; try congruence;
    match goal with E : (l =? WHITE)%Z = true |- _ => apply Z.eqb_eq in E; congruence end.
Qed.

Section FrameFacts.

Variable obstacle_nearby : Tick -> bool.
Variable interpret : Q -> State -> result State.
Variable gap : string.

Hypothesis interpret_frame : forall d st st',
  interpret d st = Ok st' ->
  last_detected_color st' = last_detected_color st
  /\ signal_start_time st' = signal_start_time st
  /\ (forall u, first_signal_duration st = Some u -> first_signal_duration st' = Some u)
  /\ (first_signal_duration st = None ->
      forall u, first_signal_duration st' = Some u ->
                last_detected_color st = Some WHITE /\ u = d).

Lemma first_kept_step (st st' : State) (tk : Tick) (b : bool) (u : Q) :
  loop_body obstacle_nearby interpret gap st tk = Ok (st', b) ->
  first_signal_duration st = Some u -> first_signal_duration st' = Some u.
Proof.
  intros H Hf.
  destruct (loop_body_inv _ _ _ _ _ _ _ H)
    as [[_ ->] | [(_ & _ & ->) | (_ & _ & st1 & Hi & ->)]]; try exact Hf.
  simpl. apply (interpret_frame _ _ _ Hi). exact Hf.
Qed.

Lemma first_set_step (st st' : State) (tk : Tick) (b : bool) (u : Q) :
  loop_body obstacle_nearby interpret gap st tk = Ok (st', b) ->
  first_signal_duration st = None -> first_signal_duration st' = Some u ->
  last_detected_color st = Some WHITE
  /\ color_changed (alias_color (sensor_color tk)) (Some WHITE) = true
  /\ u = t_read tk - signal_start_time st.
Proof.
  intros H Hf Hf'.
  destruct (loop_body_inv _ _ _ _ _ _ _ H)
    as [[_ ->] | [(_ & _ & ->) | (Hc & _ & st1 & Hi & ->)]];
    try (simpl in Hf'; congruence).
  simpl in Hf'. destruct (interpret_frame _ _ _ Hi) as (_ & _ & _ & Hset).
  destruct (Hset Hf u Hf') as [Hw ->]. rewrite Hw in Hc. repeat split; assumption.
Qed.

Lemma first_kept_run (ticks : list Tick) (st st' : State) (o : outcome) (u : Q) :
  decode_path obstacle_nearby interpret gap ticks st = Ok (st', o) ->
  first_signal_duration st = Some u -> first_signal_duration st' = Some u.
Proof.
  intros Hrun Hf.
  apply (decode_path_preserves obstacle_nearby interpret gap
           (fun s => first_signal_duration s = Some u)) with (2 := Hf) (3 := Hrun).
  intros s tk s' b Hs Hb. apply (first_kept_step _ _ _ _ _ Hb Hs).
Qed.

Lemma no_signal_no_effect (st : State) (tk : Tick) :
  decodable (last_detected_color st) = false ->
  exists st' b,
    loop_body obstacle_nearby interpret gap st tk = Ok (st', b)
    /\ first_signal_duration st' = first_signal_duration st
    /\ decoded_message st' = decoded_message st
    /\ signal_start_time st' = signal_start_time st.
Proof.
  intros Hd.
  destruct (color_changed (alias_color (sensor_color tk)) (last_detected_color st)) eqn:Hc.
  - eexists. eexists. split; [apply (loop_body_not_decodable _ _ _ _ _ Hc Hd)|].
    repeat split; reflexivity.
  - eexists. eexists. split; [apply (loop_body_same_color _ _ _ _ _ Hc)|].
    repeat split; reflexivity.
Qed.

End FrameFacts.

Lemma V1_interpret_white_uncalibrated (d : Q) (st : State) :
  last_detected_color st = Some WHITE -> first_signal_duration st = None ->
  V1.interpret d st = Ok (set_first st d).
Proof.
  intros Hl Hf. unfold V1.interpret, V1.interpret_white. rewrite Hl, Hf. reflexivity.
Qed.

Lemma V2_interpret_white_uncalibrated (d : Q) (st : State) :
  last_detected_color st = Some WHITE -> first_signal_duration st = None ->
  exists st', V2.interpret d st = Ok st' /\ first_signal_duration st' = Some d.
Proof.
  intros Hl Hf. destruct st as [l s f m]. simpl in Hl, Hf. subst l f.
  unfold V2.interpret, V2.is_color, unit_of. cbn.
  destruct (Qltb (0.2 * d) d && Qltb d (0.5 * d)); cbn;
    destruct (Qltb (0.5 * d) d); cbn; eexists; split; reflexivity.
Qed.

(** C3. In both scripts the unit duration, once set, is kept by every later
    pass and so by every run of the loop; while it is unset, the only pass
    that sets it is one that closes a white interval, it sets it to that
    interval's duration, and every such pass does set it. It is therefore
    set at most once, from the first white interval and not from a red
    one. *)
Theorem C3_unit_set_once_from_first_white :
  calibrates_once_on_white V1.loop_body V1.decode_path
  /\ calibrates_once_on_white V2.loop_body V2.decode_path.
Proof.
  split; unfold calibrates_once_on_white; (split; [|split; [|split]]).
  - intros st tk st' b u. apply first_kept_step. apply V1_interpret_frame.
  - intros st tk st' b u. apply first_set_step. apply V1_interpret_frame.
  - intros st tk Hl Hf Hc.
    assert (Hc' : color_changed (alias_color (sensor_color tk)) (last_detected_color st) = true)
      by (rewrite Hl; exact Hc).
    assert (Hd : decodable (last_detected_color st) = true) by (rewrite Hl; reflexivity).
    eexists. eexists. split.
    + apply (loop_body_interval_ok _ _ _ _ _ _ Hc' Hd
               (V1_interpret_white_uncalibrated _ st Hl Hf)).
    + reflexivity.
  - intros ticks st st' o u. apply first_kept_run. apply V1_interpret_frame.
  - intros st tk st' b u. apply first_kept_step. apply V2_interpret_frame.
  - intros st tk st' b u. apply first_set_step. apply V2_interpret_frame.
  - intros st tk Hl Hf Hc.
    assert (Hc' : color_changed (alias_color (sensor_color tk)) (last_detected_color st) = true)
      by (rewrite Hl; exact Hc).
    assert (Hd : decodable (last_detected_color st) = true) by (rewrite Hl; reflexivity).
    destruct (V2_interpret_white_uncalibrated (t_read tk - signal_start_time st) st Hl Hf)
      as (st1 & Hi & Hf1).
    eexists. eexists. split.
    + apply (loop_body_interval_ok _ _ _ _ _ _ Hc' Hd Hi).
    + exact Hf1.
  - intros ticks st st' o u. apply first_kept_run. apply V2_interpret_frame.
Qed.

(** C8. When the colour of the run that a pass closes is neither red nor
    white (or no colour has been seen yet), the pass succeeds and leaves the
    unit duration, the decoded message and the timer as they were, in both
    scripts. *)
Theorem C8_other_colors_leave_state (st : State) (tk : Tick) :
  decodable (last_detected_color st) = false ->
  (exists st' b,
      V1.loop_body st tk = Ok (st', b)
      /\ first_signal_duration st' = first_signal_duration st
      /\ decoded_message st' = decoded_message st
      /\ signal_start_time st' = signal_start_time st)
  /\ (exists st' b,
         V2.loop_body st tk = Ok (st', b)
         /\ first_signal_duration st' = first_signal_duration st
         /\ decoded_message st' = decoded_message st
         /\ signal_start_time st' = signal_start_time st).
Proof.
  intros Hd. split; apply no_signal_no_effect; exact Hd.
Qed.

Lemma V1_interpret_red_uncalibrated (d : Q) (st : State) :
  last_detected_color st = Some RED -> first_signal_duration st = None ->
  V1.interpret d st = Raise TypeError.
Proof.
  intros Hl Hf. unfold V1.interpret, V1.interpret_red, unit_of.
  rewrite Hl, Hf. reflexivity.
Qed.

Lemma V2_interpret_red_uncalibrated (d : Q) (st : State) :
  last_detected_color st = Some RED -> first_signal_duration st = None ->
  V2.interpret d st = Raise TypeError.
Proof.
  intros Hl Hf. destruct st as [l s f m]. simpl in Hl, Hf. subst l f.
  reflexivity.
Qed.

(** C9. A pass that closes a red interval while the unit duration is unset
    raises [TypeError] in both scripts instead of returning; the case is
    reached from the initial state by a red run followed by any other
    colour, and a successful pass sets the unit duration only when it closes
    a white interval. *)
Theorem C9_red_before_calibration_raises :
  (forall st tk,
      last_detected_color st = Some RED -> first_signal_duration st = None ->
      color_changed (alias_color (sensor_color tk)) (Some RED) = true ->
      V1.loop_body st tk = Raise TypeError /\ V2.loop_body st tk = Raise TypeError)
  /\ (forall now tk1 tk2 rest,
         alias_color (sensor_color tk1) = RED ->
         color_changed (alias_color (sensor_color tk2)) (Some RED) = true ->
         V1.obstacle_nearby tk1 = false -> V2.obstacle_nearby tk1 = false ->
         V1.decode_path (tk1 :: tk2 :: rest) (initialize now) = Raise TypeError
         /\ V2.decode_path (tk1 :: tk2 :: rest) (initialize now) = Raise TypeError)
  /\ (forall st tk st' b u,
         first_signal_duration st = None -> first_signal_duration st' = Some u ->
         V1.loop_body st tk = Ok (st', b) \/ V2.loop_body st tk = Ok (st', b) ->
         last_detected_color st = Some WHITE).
Proof.
  assert (Hstep : forall st tk,
             last_detected_color st = Some RED -> first_signal_duration st = None ->
             color_changed (alias_color (sensor_color tk)) (Some RED) = true ->
             V1.loop_body st tk = Raise TypeError /\ V2.loop_body st tk = Raise TypeError).
  { intros st tk Hl Hf Hc.
    assert (Hc' : color_changed (alias_color (sensor_color tk)) (last_detected_color st) = true)
      by (rewrite Hl; exact Hc).
    assert (Hd : decodable (last_detected_color st) = true) by (rewrite Hl; reflexivity).
    split.
    - apply (loop_body_interval_raise _ _ _ _ _ _ Hc' Hd).
      apply V1_interpret_red_uncalibrated; assumption.
    - apply (loop_body_interval_raise _ _ _ _ _ _ Hc' Hd).
      apply V2_interpret_red_uncalibrated; assumption. }
  split; [exact Hstep|]. split.
  - intros now tk1 tk2 rest H1 H2 Ho1 Ho2.
    destruct (Hstep (set_last (initialize now) RED) tk2 eq_refl eq_refl H2) as [R1 R2].
    split.
    + unfold V1.decode_path. cbn [decode_path].
      unfold V1.loop_body in R1.
      rewrite (loop_body_not_decodable V1.obstacle_nearby V1.interpret V1.gap
                 (initialize now) tk1 eq_refl eq_refl).
      rewrite H1, Ho1. cbn [bind snd fst orb]. 
      change (message_ended V1.gap (set_last (initialize now) RED)) with false.
      cbn iota. rewrite R1. reflexivity.
    + unfold V2.decode_path. cbn [decode_path].
      unfold V2.loop_body in R2.
      rewrite (loop_body_not_decodable V2.obstacle_nearby V2.interpret V2.gap
                 (initialize now) tk1 eq_refl eq_refl).
      rewrite H1, Ho2. cbn [bind snd fst orb].
      change (message_ended V2.gap (set_last (initialize now) RED)) with false.
      cbn iota. rewrite R2. reflexivity.
  - intros st tk st' b u Hf Hf' [H | H].
    + apply (first_set_step _ _ _ V1_interpret_frame _ _ _ _ _ H Hf Hf').
    + apply (first_set_step _ _ _ V2_interpret_frame _ _ _ _ _ H Hf Hf').
Qed.

Lemma Qdiv_nonpos (d u : Q) : d <= 0 -> 0 < u -> d / u <= 0.
Proof.
  intros Hd Hu. apply Qle_shift_div_r; [exact Hu | lra].
Qed.

(** C7. Neither script checks the sign of a duration. In a calibrated
    session with a positive unit duration, a pass that closes a red or white
    interval of zero or negative duration succeeds like any other: a red
    interval appends a dot, a white one appends nothing, and the unit
    duration stays as it was. *)
Theorem C7_nonpositive_duration_accepted (st : State) (tk : Tick) (u : Q) :
  first_signal_duration st = Some u ->
  0 < u ->
  decodable (last_detected_color st) = true ->
  color_changed (alias_color (sensor_color tk)) (last_detected_color st) = true ->
  t_read tk - signal_start_time st <= 0 ->
  (exists st1 b,
      V1.loop_body st tk = Ok (st1, b)
      /\ first_signal_duration st1 = Some u
      /\ (last_detected_color st = Some RED ->
          decoded_message st1 = decoded_message st ++ V1.dot)
      /\ (last_detected_color st = Some WHITE ->
          decoded_message st1 = decoded_message st))
  /\ (exists st2 b,
         V2.loop_body st tk = Ok (st2, b)
         /\ first_signal_duration st2 = Some u
         /\ (last_detected_color st = Some RED ->
             decoded_message st2 = decoded_message st ++ V2.dot)
         /\ (last_detected_color st = Some WHITE ->
             decoded_message st2 = decoded_message st)).
Proof.
  intros Hf Hu Hd Hc Hneg.
  set (d := t_read tk - signal_start_time st) in *.
  assert (Hcases : last_detected_color st = Some RED \/ last_detected_color st = Some WHITE).
  { destruct (last_detected_color st) as [l|]; [|discriminate].
    simpl in Hd. apply orb_true_iff in Hd.
    destruct Hd as [H | H]; apply Z.eqb_eq in H; subst l; auto. }
  assert (Hrw : Some RED <> Some WHITE) by discriminate.
  split.
  - destruct Hcases as [Hl | Hl].
    + destruct (step_emits V1.obstacle_nearby V1.interpret V1.gap st tk _ Hc Hd
                           (V1_interpret_red st d u Hl Hf))
        as (st1 & b & Hstep & H1 & Hm & _).
      exists st1, b. split; [exact Hstep|]. split; [congruence|].
      split; [|intros; congruence].
      intros _. rewrite Hm.
      assert (E : Qltb d u = true) by (apply Qltb_lt; lra).
      now rewrite E.
    + assert (Hu0 : ~ u == 0) by lra.
      destruct (step_emits V1.obstacle_nearby V1.interpret V1.gap st tk _ Hc Hd
                           (V1_interpret_white st d u Hl Hf Hu0))
        as (st1 & b & Hstep & H1 & Hm & _).
      exists st1, b. split; [exact Hstep|]. split; [congruence|].
      split; [intros; congruence|].
      intros _. rewrite Hm.
      rewrite (str_mul_nonpos _ _ (round_nonpos _ (Qdiv_nonpos d u Hneg Hu))).
      apply append_nil_r.
  - destruct Hcases as [Hl | Hl].
    + destruct (V2_interpret_red st d u Hl Hf) as (mark & tail & Hi & Hdot & _ & _ & _ & Ht).
      destruct (step_emits V2.obstacle_nearby V2.interpret V2.gap st tk _ Hc Hd Hi)
        as (st2 & b & Hstep & H1 & Hm & _).
      exists st2, b. split; [exact Hstep|]. split; [congruence|].
      split; [|intros; congruence].
      intros _. rewrite Hm, Hdot, Ht by lra. reflexivity.
    + destruct (V2_interpret_white st d u Hl Hf) as (sep & tail & Hi & _ & Hs & _ & Ht).
      destruct (step_emits V2.obstacle_nearby V2.interpret V2.gap st tk _ Hc Hd Hi)
        as (st2 & b & Hstep & H1 & Hm & _).
      exists st2, b. split; [exact Hstep|]. split; [congruence|].
      split; [intros; congruence|].
      intros _. rewrite Hm, Hs, Ht by (try left; lra). apply append_nil_r.
Qed.

(** ** The segmenter over a whole stream *)

Lemma run_colors_not_nil (c : Z) (cs : list Z) : run_colors (c :: cs) <> [].
Proof.
  revert c. induction cs as [|c' cs IH]; intros c; [discriminate|].
  cbn [run_colors]. destruct (c =? c')%Z; [apply IH | discriminate].
Qed.

(** ** Concrete runs *)

(** First script: a white run of 2 and then a red run of 1. The unit
    duration is taken from the white interval; the first red interval does
    not set it. *)
Lemma C3_counterexample_set_from_white :
  let ticks := map tick_of_sample [mkSample WHITE 0; mkSample RED 2; mkSample WHITE 3] in
  intervals (segmenter_of (initialize 0)) ticks = [mkInterval WHITE 2; mkInterval RED 1]
  /\ exists st', V1.decode_path ticks (initialize 0) = Ok (st', Continue)
                 /\ first_signal_duration st' = Some 2
                 /\ ~ 2 == 1.
Proof.
  cbn zeta. split; [vm_compute; reflexivity|].
  eexists. split; [vm_compute; reflexivity|].
  split; [reflexivity | discriminate].
Qed.

Lemma C3_witness :
  let st := mkState (Some WHITE) 0 None "" in
  let tk := tick_of_sample (mkSample RED 2) in
  exists st' b, V1.loop_body st tk = Ok (st', b)
                /\ first_signal_duration st' = Some (2 - 0)
                /\ last_detected_color st = Some WHITE.
Proof.
  cbn zeta. eexists. eexists. split; [reflexivity|]. split; [reflexivity|].
  destruct C3_unit_set_once_from_first_white as [(_ & Hset & _) _].
  apply (Hset (mkState (Some WHITE) 0 None "") (tick_of_sample (mkSample RED 2))
              _ _ (2 - 0) eq_refl eq_refl eq_refl).
Defined.

Lemma C4_witness :
  let st := mkState (Some WHITE) 0 (Some 1) "-      " in
  let tk := tick_of_sample (mkSample RED 1) in
  V1.decode_path [tk; tick_of_sample (mkSample WHITE 2)] st
  = Ok (mkState (Some RED) 1 (Some 1) "-       ", Terminate).
Proof.
  cbn zeta.
  destruct (C4_terminate_iff_seven_trailing_gaps
              (mkState (Some WHITE) 0 (Some 1) "-      ")
              (tick_of_sample (mkSample RED 1))
              [tick_of_sample (mkSample WHITE 2)]) as (_ & _ & _ & _ & Hloop & _).
  destruct (Hloop (mkState (Some RED) 1 (Some 1) "-       ") true eq_refl) as [_ Hrun].
  apply Hrun. reflexivity.
Defined.

(** First script, unit duration 1: a red interval of duration 0 is not
    rejected; the pass succeeds and appends a dot. *)
Lemma C7_counterexample_zero_duration :
  let st := mkState (Some RED) 10 (Some 1) "" in
  let tk := tick_of_sample (mkSample WHITE 10) in
  t_read tk - signal_start_time st <= 0
  /\ exists st', V1.loop_body st tk = Ok (st', false)
                 /\ decoded_message st' = "."
                 /\ decoded_message st' <> decoded_message st.
Proof.
  cbn zeta. split; [discriminate|].
  eexists. split; [vm_compute; reflexivity|].
  split; [reflexivity | discriminate].
Qed.

Lemma C7_witness :
  let st := mkState (Some RED) 10 (Some 1) "" in
  let tk := tick_of_sample (mkSample WHITE 9) in
  exists st2 b, V2.loop_body st tk = Ok (st2, b)
                /\ first_signal_duration st2 = Some 1
                /\ decoded_message st2 = ".".
Proof.
  cbn zeta.
  assert (Hu : 0 < 1) by reflexivity.
  assert (Hd : 9 - 10 <= 0) by discriminate.
  destruct (C7_nonpositive_duration_accepted (mkState (Some RED) 10 (Some 1) "")
              (tick_of_sample (mkSample WHITE 9)) 1 eq_refl Hu eq_refl eq_refl Hd)
    as [_ (st2 & b & Hstep & Hf & Hred & _)].
  exists st2, b. split; [exact Hstep|]. split; [exact Hf|]. apply Hred. reflexivity.
Defined.

Lemma C8_witness :
  let st := mkState (Some 3%Z) 0 (Some 1) ".-" in
  let tk := tick_of_sample (mkSample RED 4) in
  exists st' b, V1.loop_body st tk = Ok (st', b)
                /\ first_signal_duration st' = Some 1
                /\ decoded_message st' = ".-"
                /\ signal_start_time st' = 0.
Proof.
  cbn zeta.
  destruct (C8_other_colors_leave_state (mkState (Some 3%Z) 0 (Some 1) ".-")
              (tick_of_sample (mkSample RED 4)) eq_refl) as [H _].
  exact H.
Defined.

Lemma C9_witness :
  V1.decode_path (map tick_of_sample [mkSample RED 1; mkSample WHITE 2]) (initialize 0)
  = Raise TypeError
  /\ V2.decode_path (map tick_of_sample [mkSample RED 1; mkSample WHITE 2]) (initialize 0)
     = Raise TypeError.
Proof.
  destruct C9_red_before_calibration_raises as (_ & Hreach & _).
  apply (Hreach 0 (tick_of_sample (mkSample RED 1)) (tick_of_sample (mkSample WHITE 2)) []);
    reflexivity.
Defined.

Lemma C10_witness :
  let st := mkState (Some RED) 0 (Some 1) "." in
  let tk := tick_of_sample (mkSample WHITE 1) in
  exists st2 b, V2.loop_body st tk = Ok (st2, b) /\ decoded_message st2 = ".-|".
Proof.
  cbn zeta.
  assert (Hu : 0 <= 1 \/ 0 <= 1 - 0) by (left; discriminate).
  assert (Hlong : (5 # 10) * 1 < 1 - 0) by reflexivity.
  destruct (C10_mark_gets_dash_and_word_gap (mkState (Some RED) 0 (Some 1) ".")
              (tick_of_sample (mkSample WHITE 1)) 1 eq_refl eq_refl Hu eq_refl Hlong)
    as (st2 & b & Hstep & Hm).
  exists st2, b. split; [exact Hstep | exact Hm].
Defined.

(** ** Further properties of the loop *)

(** X2. In the first script a unit duration of zero makes the next white
    interval fatal: the pass that closes it divides by the unit duration
    and raises [ZeroDivisionError]. *)
Theorem X2_zero_unit_divides_by_zero (st : State) (tk : Tick) (u : Q) :
  last_detected_color st = Some WHITE ->
  first_signal_duration st = Some u ->
  u == 0 ->
  color_changed (alias_color (sensor_color tk)) (Some WHITE) = true ->
  V1.loop_body st tk = Raise ZeroDivisionError
  /\ forall rest, V1.decode_path (tk :: rest) st = Raise ZeroDivisionError.
Proof.
  intros Hl Hf Hu Hc.
  assert (Hc' : color_changed (alias_color (sensor_color tk)) (last_detected_color st) = true)
    by (rewrite Hl; exact Hc).
  assert (Hd : decodable (last_detected_color st) = true) by (rewrite Hl; reflexivity).
  assert (Hi : V1.interpret (t_read tk - signal_start_time st) st = Raise ZeroDivisionError).
  { unfold V1.interpret, V1.interpret_white. rewrite Hl, Hf. simpl.
    apply Qeq_bool_iff in Hu. rewrite Hu. reflexivity. }
  assert (Hstep : V1.loop_body st tk = Raise ZeroDivisionError)
    by apply (loop_body_interval_raise _ _ _ _ _ _ Hc' Hd Hi).
  split; [exact Hstep|].
  intros rest. unfold V1.decode_path. cbn [decode_path].
  unfold V1.loop_body in Hstep. rewrite Hstep. reflexivity.
Qed.

(** A session of the first script whose first white run is closed at the
    very clock value of the initialisation calibrates to zero; the second
    white run then stops the program. *)
Lemma X2_witness :
  V1.decode_path
    (map tick_of_sample [mkSample WHITE 0; mkSample RED 0; mkSample WHITE 1; mkSample RED 2])
    (initialize 0)
  = Raise ZeroDivisionError.
Proof.
  assert (Hu : 0 - 0 == 0) by reflexivity.
  destruct (X2_zero_unit_divides_by_zero
              (mkState (Some WHITE) 1 (Some (0 - 0)) "-")
              (tick_of_sample (mkSample RED 2)) (0 - 0) eq_refl eq_refl Hu eq_refl)
    as [_ Hrun].
  specialize (Hrun []).
  change (V1.decode_path
            (map tick_of_sample
                 [mkSample WHITE 0; mkSample RED 0; mkSample WHITE 1; mkSample RED 2])
            (initialize 0))
    with (V1.decode_path [tick_of_sample (mkSample RED 2)]
                         (mkState (Some WHITE) 1 (Some (0 - 0)) "-")).
  exact Hrun.
Defined.

Lemma all_in_app (allowed s1 s2 : string) :
  all_in allowed (s1 ++ s2) = all_in allowed s1 && all_in allowed s2.
Proof.
  induction s1 as [|c s1 IH]; simpl; [reflexivity|].
  rewrite IH. apply andb_assoc.
Qed.

Lemma all_in_gaps (allowed : string) (n : nat) :
  char_in " " allowed = true -> all_in allowed (repeat_nat " " n) = true.
Proof.
  intros H. induction n as [|n IH]; simpl; [reflexivity|].
  rewrite H. exact IH.
Qed.

Lemma V1_interpret_appends (d : Q) (st st' : State) :
  V1.interpret d st = Ok st' ->
  exists x, decoded_message st' = decoded_message st ++ x /\ all_in ".- " x = true.
Proof.
  destruct st as [[l|] s [u0|] m];
    unfold V1.interpret, V1.interpret_white, V1.interpret_red, unit_of;
    cbn; intros H; split_ifs; try discriminate; injection H as <-; cbn;
    first [ eexists; split; [reflexivity|]; first [reflexivity | apply all_in_gaps; reflexivity]
          | exists ""; split; [symmetry; apply append_nil_r | reflexivity] ].
Qed.

Lemma V2_interpret_appends (d : Q) (st st' : State) :
  V2.interpret d st = Ok st' ->
  exists x, decoded_message st' = decoded_message st ++ x /\ all_in ".- |" x = true.
Proof.
  destruct st as [[l|] s [u0|] m];
    unfold V2.interpret, V2.is_color, unit_of;
    cbn; intros H; split_ifs; try discriminate; injection H as <-; cbn;
    rewrite ?append_assoc;
    first [ eexists; split; [reflexivity|]; reflexivity
          | exists ""; split; [symmetry; apply append_nil_r | reflexivity] ].
Qed.

Section AppendOnly.

Variable obstacle_nearby : Tick -> bool.
Variable interpret : Q -> State -> result State.
Variable gap : string.
Variable alphabet : string.

Hypothesis interpret_appends : forall d st st',
  interpret d st = Ok st' ->
  exists x, decoded_message st' = decoded_message st ++ x /\ all_in alphabet x = true.

Lemma step_appends (st st' : State) (tk : Tick) (b : bool) :
  loop_body obstacle_nearby interpret gap st tk = Ok (st', b) ->
  exists x, decoded_message st' = decoded_message st ++ x /\ all_in alphabet x = true.
Proof.
  intros H.
  destruct (loop_body_inv _ _ _ _ _ _ _ H)
    as [[_ ->] | [(_ & _ & ->) | (_ & _ & st1 & Hi & ->)]].
  - exists "". split; [symmetry; apply append_nil_r | reflexivity].
  - exists "". split; [symmetry; apply append_nil_r | reflexivity].
  - apply (interpret_appends _ _ _ Hi).
Qed.

Lemma run_appends (ticks : list Tick) (st st' : State) (o : outcome) :
  decode_path obstacle_nearby interpret gap ticks st = Ok (st', o) ->
  exists x, decoded_message st' = decoded_message st ++ x /\ all_in alphabet x = true.
Proof.
  revert st. induction ticks as [|tk rest IH]; intros st Hrun.
  - simpl in Hrun. injection Hrun as <- _.
    exists "". split; [symmetry; apply append_nil_r | reflexivity].
  - cbn [decode_path] in Hrun.
    destruct (loop_body obstacle_nearby interpret gap st tk) as [[s1 b]|e] eqn:Hb;
      cbn [bind snd fst] in Hrun; [|discriminate].
    destruct (step_appends _ _ _ _ Hb) as (x1 & Hm1 & Ha1).
    destruct b.
    + injection Hrun as <- _. exists x1. split; assumption.
    + destruct (IH s1 Hrun) as (x2 & Hm2 & Ha2).
      exists (x1 ++ x2). split.
      * rewrite Hm2, Hm1. apply append_assoc.
      * rewrite all_in_app, Ha1, Ha2. reflexivity.
Qed.

End AppendOnly.

(** X3. A run of the loop only appends to the decoded message, and what it
    appends is made of dots, dashes and gaps in the first script, and of
    dots, dashes, gaps and word-gap characters in the second; a message made
    of these characters stays so. *)
Theorem X3_run_appends_morse_symbols (ticks : list Tick) (st st' : State) (o : outcome) :
  (V1.decode_path ticks st = Ok (st', o) ->
   (exists x, decoded_message st' = decoded_message st ++ x /\ all_in ".- " x = true)
   /\ (all_in ".- " (decoded_message st) = true ->
       all_in ".- " (decoded_message st') = true))
  /\ (V2.decode_path ticks st = Ok (st', o) ->
      (exists x, decoded_message st' = decoded_message st ++ x /\ all_in ".- |" x = true)
      /\ (all_in ".- |" (decoded_message st) = true ->
          all_in ".- |" (decoded_message st') = true)).
Proof.
  split; intros Hrun.
  - destruct (run_appends _ _ _ _ V1_interpret_appends _ _ _ _ Hrun) as (x & Hm & Ha).
    split; [exists x; split; assumption|].
    intros H0. rewrite Hm, all_in_app, H0, Ha. reflexivity.
  - destruct (run_appends _ _ _ _ V2_interpret_appends _ _ _ _ Hrun) as (x & Hm & Ha).
    split; [exists x; split; assumption|].
    intros H0. rewrite Hm, all_in_app, H0, Ha. reflexivity.
Qed.

Lemma X3_witness :
  all_in ".- |" ".-|" = true.
Proof.
  apply (proj2 (proj2 (X3_run_appends_morse_symbols
                         (map tick_of_sample [mkSample WHITE 1])
                         (mkState (Some RED) 0 (Some 1) ".")
                         (mkState (Some WHITE) 1 (Some 1) ".-|") Continue) eq_refl)).
  reflexivity.
Defined.

(** X4. The pass that calibrates. In the first script closing the first white
    interval sets the unit duration and appends nothing. In the second
    script it sets the unit duration and then classifies that same interval
    against itself: a word-gap character is appended whenever the duration
    is positive, and nothing otherwise. *)
Theorem X4_calibrating_pass (st : State) (tk : Tick) :
  last_detected_color st = Some WHITE ->
  first_signal_duration st = None ->
  color_changed (alias_color (sensor_color tk)) (Some WHITE) = true ->
  let d := t_read tk - signal_start_time st in
  (exists st1 b,
      V1.loop_body st tk = Ok (st1, b)
      /\ first_signal_duration st1 = Some d
      /\ decoded_message st1 = decoded_message st)
  /\ (exists st2 b,
         V2.loop_body st tk = Ok (st2, b)
         /\ first_signal_duration st2 = Some d
         /\ (0 < d -> decoded_message st2 = decoded_message st ++ V2.word_gap)
         /\ (d <= 0 -> decoded_message st2 = decoded_message st)).
Proof.
  intros Hl Hf Hc d.
  assert (Hc' : color_changed (alias_color (sensor_color tk)) (last_detected_color st) = true)
    by (rewrite Hl; exact Hc).
  assert (Hd : decodable (last_detected_color st) = true) by (rewrite Hl; reflexivity).
  split.
  - eexists. eexists. split.
    + apply (loop_body_interval_ok _ _ _ _ _ _ Hc' Hd
               (V1_interpret_white_uncalibrated d st Hl Hf)).
    + split; reflexivity.
  - assert (Hi : exists st1, V2.interpret d st = Ok st1
                             /\ first_signal_duration st1 = Some d
                             /\ (0 < d -> decoded_message st1 = decoded_message st ++ "|")
                             /\ (d <= 0 -> decoded_message st1 = decoded_message st)).
    { destruct st as [l s f m]. simpl in Hl, Hf. subst l f.
      unfold V2.interpret, V2.is_color, unit_of. cbn.
      destruct (Qltb (0.2 * d) d) eqn:E1; cbn;
        destruct (Qltb d (0.5 * d)) eqn:E2; cbn;
        destruct (Qltb (0.5 * d) d) eqn:E3; cbn;
        repeat match goal with
               | H : Qltb _ _ = true |- _ => apply Qltb_lt in H
               | H : Qltb _ _ = false |- _ => apply Qltb_ge in H
               end;
        try (exfalso; lra);
        (eexists; split; [reflexivity|]; split; [reflexivity|]);
        split; intros; try reflexivity; exfalso; lra. }
    destruct Hi as (st1 & Hi & Hf1 & Hpos & Hneg).
    eexists. eexists. split; [apply (loop_body_interval_ok _ _ _ _ _ _ Hc' Hd Hi)|].
    split; [exact Hf1|]. split; [exact Hpos | exact Hneg].
Qed.

Lemma X4_witness :
  exists st2 b,
    V2.loop_body (mkState (Some WHITE) 0 None "") (tick_of_sample (mkSample RED 2))
    = Ok (st2, b)
    /\ decoded_message st2 = "|".
Proof.
  destruct (X4_calibrating_pass (mkState (Some WHITE) 0 None "")
              (tick_of_sample (mkSample RED 2)) eq_refl eq_refl eq_refl)
    as [_ (st2 & b & Hstep & _ & Hpos & _)].
  exists st2, b. split; [exact Hstep|]. apply Hpos. reflexivity.
Defined.

Lemma alias_color_idempotent (c : Z) : alias_color (alias_color c) = alias_color c.
Proof.
  unfold alias_color.
  destruct (c =? 4)%Z eqn:E4; [reflexivity|].
  destruct (c =? 7)%Z eqn:E7; [reflexivity|].
  cbn. rewrite E4, E7. reflexivity.
Qed.

Section Composition.

Variable obstacle_nearby : Tick -> bool.
Variable interpret : Q -> State -> result State.
Variable gap : string.

Hypothesis obstacle_pre_alias : forall tk, obstacle_nearby (pre_alias tk) = obstacle_nearby tk.

Lemma loop_body_pre_alias (st : State) (tk : Tick) :
  loop_body obstacle_nearby interpret gap st (pre_alias tk)
  = loop_body obstacle_nearby interpret gap st tk.
Proof.
  unfold loop_body, on_change. rewrite obstacle_pre_alias.
  cbn [pre_alias sensor_color t_read t_reset].
  rewrite alias_color_idempotent. reflexivity.
Qed.

Lemma decode_path_pre_alias (ticks : list Tick) (st : State) :
  decode_path obstacle_nearby interpret gap (map pre_alias ticks) st
  = decode_path obstacle_nearby interpret gap ticks st.
Proof.
  revert st. induction ticks as [|tk rest IH]; intros st; [reflexivity|].
  cbn [map decode_path]. rewrite loop_body_pre_alias.
  destruct (loop_body obstacle_nearby interpret gap st tk) as [[s1 b]|e];
    cbn [bind snd fst]; [|reflexivity].
  destruct b; [reflexivity | apply IH].
Qed.

End Composition.

(** X5. Yellow (4) and brown (7) are read as red (5) in both scripts: a run
    on the raw sensor colours is the run on the colours with 4 and 7
    replaced by 5 beforehand, and while the last colour is red a pass that
    reads 4, 5 or 7 closes no interval and leaves the state as it is. *)
Theorem X5_yellow_and_brown_are_red (ticks : list Tick) (st : State) (tk : Tick) :
  V1.decode_path (map pre_alias ticks) st = V1.decode_path ticks st
  /\ V2.decode_path (map pre_alias ticks) st = V2.decode_path ticks st
  /\ (last_detected_color st = Some RED ->
      sensor_color tk = 4%Z \/ sensor_color tk = 5%Z \/ sensor_color tk = 7%Z ->
      (exists b, V1.loop_body st tk = Ok (st, b))
      /\ (exists b, V2.loop_body st tk = Ok (st, b))).
Proof.
  split; [|split].
  - apply decode_path_pre_alias. reflexivity.
  - apply decode_path_pre_alias. reflexivity.
  - intros Hl Hc.
    assert (Hsame : color_changed (alias_color (sensor_color tk)) (last_detected_color st)
                    = false).
    { rewrite Hl. destruct Hc as [E | [E | E]]; rewrite E; reflexivity. }
    split; eexists; apply (loop_body_same_color _ _ _ _ _ Hsame).
Qed.

Lemma X5_witness :
  exists b, V1.loop_body (mkState (Some RED) 0 (Some 1) ".")
                         (tick_of_sample (mkSample 7 3))
            = Ok (mkState (Some RED) 0 (Some 1) ".", b).
Proof.
  destruct (X5_yellow_and_brown_are_red [] (mkState (Some RED) 0 (Some 1) ".")
              (tick_of_sample (mkSample 7 3))) as (_ & _ & H).
  apply (H eq_refl). right. right. reflexivity.
Defined.

(** ** Further properties of the translator *)

Lemma lstrip_gaps (n : nat) (m : string) : lstrip (repeat_nat " " n ++ m) = lstrip m.
Proof. induction n as [|n IH]; [reflexivity | exact IH]. Qed.

Lemma strip_app_gaps (n : nat) (m : string) : strip (m ++ repeat_nat " " n) = strip m.
Proof.
  revert m. induction n as [|n IH]; intros m.
  - cbn [repeat_nat]. now rewrite append_nil_r.
  - change (repeat_nat " " (S n)) with (" " ++ repeat_nat " " n).
    rewrite <- append_assoc, IH. apply strip_app_space.
Qed.

Lemma strip_padded (a b : nat) (m : string) :
  strip (repeat_nat " " a ++ m ++ repeat_nat " " b) = strip m.
Proof.
  rewrite <- append_assoc, strip_app_gaps. unfold strip. now rewrite lstrip_gaps.
Qed.

(** X8. [display_results] of the first script does not depend on the gaps
    that start or end the decoded message: they are stripped before the
    message is translated, so the run of gaps that ended the decoding is
    never translated into words. *)
Theorem X8_display_ignores_outer_gaps (st : State) (a b : nat) (m : string) :
  decoded_message st = repeat_nat " " a ++ m ++ repeat_nat " " b ->
  V1.display_results st = V1.translate_to_text (strip m).
Proof.
  intros H. unfold V1.display_results. rewrite H, strip_padded. reflexivity.
Qed.

Lemma X8_witness :
  V1.display_results (mkState (Some RED) 9 (Some 1) "... ---       ") = "SO".
Proof.
  rewrite (X8_display_ignores_outer_gaps
             (mkState (Some RED) 9 (Some 1) "... ---       ") 0 7 "... ---" eq_refl).
  reflexivity.
Defined.

Lemma all_in_lstrip (allowed s : string) :
  all_in allowed s = true -> all_in allowed (lstrip s) = true.
Proof.
  induction s as [|c s IH]; simpl; [reflexivity|].
  intros H. apply andb_true_iff in H. destruct H as [Hc Hs].
  destruct (isspace c); [apply IH; exact Hs|].
  simpl. now rewrite Hc, Hs.
Qed.

Lemma all_in_rstrip (allowed s : string) :
  all_in allowed s = true -> all_in allowed (rstrip s) = true.
Proof.
  induction s as [|c s IH]; simpl; [reflexivity|].
  intros H. apply andb_true_iff in H. destruct H as [Hc Hs].
  destruct (isspace c && String.eqb (rstrip s) ""); [reflexivity|].
  simpl. rewrite Hc. apply IH. exact Hs.
Qed.

Lemma all_in_concat (allowed sep : string) (l : list string) :
  all_in allowed sep = true ->
  (forall x, In x l -> all_in allowed x = true) ->
  all_in allowed (String.concat sep l) = true.
Proof.
  intros Hsep. induction l as [|x l IH]; intros Hl; [reflexivity|].
  destruct l as [|y l]; [apply Hl; left; reflexivity|].
  change (String.concat sep (x :: y :: l)) with (x ++ sep ++ String.concat sep (y :: l)).
  rewrite !all_in_app, Hsep, (Hl x (or_introl eq_refl)), IH; [reflexivity|].
  intros z Hz. apply Hl. right. exact Hz.
Qed.

Lemma all_in_dict_get (allowed : string) (d : list (string * string)) (key default : string) :
  Forall (fun kv => all_in allowed (snd kv) = true) d ->
  all_in allowed default = true ->
  all_in allowed (dict_get d key default) = true.
Proof.
  intros Hd Hdef. induction Hd as [|[k v] d Hv _ IH]; simpl; [exact Hdef|].
  destruct (String.eqb k key); [exact Hv | exact IH].
Qed.

Lemma letter_of_alphabet (code : string) :
  all_in "ABCDEFGHIJKLMNOPQRSTUVWXYZ0123456789 " (letter_of code) = true.
Proof.
  apply all_in_dict_get; [|reflexivity].
  unfold morse_to_alpha_numeric. repeat (constructor; [reflexivity|]). constructor.
Qed.

Lemma translate_spec_alphabet (word_sep letter_sep m : string) :
  all_in "ABCDEFGHIJKLMNOPQRSTUVWXYZ0123456789 " (translate_spec word_sep letter_sep m) = true.
Proof.
  unfold translate_spec, strip. apply all_in_rstrip, all_in_lstrip.
  apply all_in_concat; [reflexivity|].
  intros x Hx. apply in_map_iff in Hx. destruct Hx as (w & <- & _).
  apply all_in_concat; [reflexivity|].
  intros y Hy. apply in_map_iff in Hy. destruct Hy as (code & <- & _).
  apply letter_of_alphabet.
Qed.

Lemma lstrip_shape (s : string) :
  lstrip s = "" \/ exists c r, lstrip s = String c r /\ isspace c = false.
Proof.
  induction s as [|c s IH]; simpl; [left; reflexivity|].
  destruct (isspace c) eqn:E; [exact IH|].
  right. exists c, s. split; [reflexivity | exact E].
Qed.

Lemma rstrip_idempotent (s : string) : rstrip (rstrip s) = rstrip s.
Proof.
  induction s as [|c s IH]; simpl; [reflexivity|].
  destruct (isspace c && String.eqb (rstrip s) "") eqn:E; [reflexivity|].
  simpl. rewrite IH, E. reflexivity.
Qed.

Lemma strip_idempotent (s : string) : strip (strip s) = strip s.
Proof.
  unfold strip. destruct (lstrip_shape s) as [H | (c & r & H & Hc)]; rewrite H.
  - reflexivity.
  - assert (E : rstrip (String c r) = String c (rstrip r))
      by (simpl; rewrite Hc; reflexivity).
    rewrite E. cbn [lstrip]. rewrite Hc. rewrite <- E. apply rstrip_idempotent.
Qed.

Lemma V1_translate_as_spec (m : string) :
  V1.translate_to_text m = translate_spec "   " " " m.
Proof.
  unfold V1.translate_to_text, translate_spec.
  rewrite translate_as_join by apply split_from_not_nil.
  f_equal. f_equal. apply map_ext. intros w. apply decode_word_concat.
Qed.

Lemma V2_translate_as_spec (m : string) :
  V2.translate_to_text m = translate_spec "|" " " m.
Proof.
  unfold V2.translate_to_text, translate_spec.
  rewrite translate_as_join by apply split_from_not_nil.
  f_equal. f_equal. apply map_ext. intros w. apply decode_word_concat.
Qed.

(** X9. Whatever string it is given, [translate_to_text] returns a text made
    of capital letters, digits and spaces only, with no whitespace at either
    end, in both scripts: characters of the message that form no known code
    never reach the text. *)
Theorem X9_text_is_clean (m : string) :
  (all_in "ABCDEFGHIJKLMNOPQRSTUVWXYZ0123456789 " (V1.translate_to_text m) = true
   /\ strip (V1.translate_to_text m) = V1.translate_to_text m)
  /\ (all_in "ABCDEFGHIJKLMNOPQRSTUVWXYZ0123456789 " (V2.translate_to_text m) = true
      /\ strip (V2.translate_to_text m) = V2.translate_to_text m).
Proof.
  split; split.
  - rewrite V1_translate_as_spec. apply translate_spec_alphabet.
  - unfold V1.translate_to_text. apply strip_idempotent.
  - rewrite V2_translate_as_spec. apply translate_spec_alphabet.
  - unfold V2.translate_to_text. apply strip_idempotent.
Qed.

(** ** Splitting and joining *)

Lemma prefix_app (p s : string) : String.prefix p s = true -> exists t, s = p ++ t.
Proof.
  revert s. induction p as [|a p IH]; intros s H.
  - exists s. reflexivity.
  - destruct s as [|b s]; [discriminate|].
    simpl in H. destruct (ascii_dec a b) as [->|]; [|discriminate].
    destruct (IH s H) as [t ->]. exists t. reflexivity.
Qed.

Lemma split_from_skip (sep p cur t : string) :
  split_from sep (String.length p) cur (p ++ t) = split_from sep 0 cur t.
Proof.
  induction p as [|a p IH]; [reflexivity | exact IH].
Qed.

Lemma concat_cons (sep x : string) (l : list string) :
  l <> [] -> String.concat sep (x :: l) = x ++ sep ++ String.concat sep l.
Proof.
  destruct l; [congruence | reflexivity].
Qed.

Lemma join_split_from (sep : string) (n : nat) :
  sep <> "" ->
  forall s cur, (String.length s <= n)%nat ->
                String.concat sep (split_from sep 0 cur s) = cur ++ s.
Proof.
  intros Hsep. induction n as [|n IH]; intros s cur Hlen.
  - destruct s; [|simpl in Hlen; lia]. simpl. now rewrite append_nil_r.
  - destruct s as [|c rest]; [simpl; now rewrite append_nil_r|].
    cbn [split_from].
    destruct (String.prefix sep (String c rest)) eqn:Hp.
    + destruct (prefix_app _ _ Hp) as [t Ht].
      destruct sep as [|a sep']; [congruence|].
      simpl in Ht. injection Ht as -> ->.
      replace (String.length (String a sep') - 1)%nat with (String.length sep')
        by (simpl; lia).
      rewrite split_from_skip.
      rewrite concat_cons by apply split_from_not_nil.
      rewrite IH.
      * reflexivity.
      * simpl in Hlen.
        assert (Hl : forall x y, String.length (x ++ y) = (String.length x + String.length y)%nat).
        { intros x y. induction x; simpl; [reflexivity | now f_equal]. }
        rewrite Hl in Hlen. lia.
    + rewrite IH by (simpl in Hlen; lia).
      rewrite append_assoc. reflexivity.
Qed.

(** X10. Splitting a string at a non-empty separator and joining the pieces
    with that separator gives the string back: the two splits of
    [translate_to_text] lose no character of the message, and replacing a
    substring by itself changes nothing. *)
Theorem X10_join_of_split (s sep : string) :
  sep <> "" ->
  String.concat sep (split s sep) = s /\ replace s sep sep = s.
Proof.
  intros Hsep.
  assert (H : String.concat sep (split s sep) = s).
  { unfold split. rewrite (join_split_from sep (String.length s) Hsep s "" (le_n _)).
    reflexivity. }
  split; [exact H | exact H].
Qed.

Lemma X10_witness :
  String.concat "   " (split ".-   -...    ." "   ") = ".-   -...    .".
Proof.
  assert (Hsep : "   " <> "") by discriminate.
  apply (proj1 (X10_join_of_split ".-   -...    ." "   " Hsep)).
Defined.

Lemma prefix_nil (s : string) : String.prefix "" s = true.
Proof. destruct s; reflexivity. Qed.

Lemma not_in_alphabet (allowed p : string) (c : ascii) :
  all_in allowed p = true -> char_in c allowed = false -> char_in c p = false.
Proof.
  intros Hp Hc. induction p as [|a p IH]; [reflexivity|].
  simpl in Hp. apply andb_true_iff in Hp. destruct Hp as [Ha Hp].
  simpl. rewrite (IH Hp), orb_false_r.
  destruct (Ascii.eqb_spec a c) as [->|]; [congruence | reflexivity].
Qed.

(** Pieces without the separating character come back from the join. *)
Lemma split_char_pass (c : ascii) (p cur t : string) :
  char_in c p = false ->
  split_from (String c "") 0 cur (p ++ t) = split_from (String c "") 0 (cur ++ p) t.
Proof.
  revert cur. induction p as [|a p IH]; intros cur Hp.
  - now rewrite append_nil_r.
  - simpl in Hp. apply orb_false_iff in Hp. destruct Hp as [Ha Hp].
    cbn [append split_from String.prefix].
    destruct (ascii_dec c a) as [->|_]; [rewrite Ascii.eqb_refl in Ha; discriminate|].
    rewrite (IH _ Hp), append_assoc. reflexivity.
Qed.

Lemma split_char_hit (c : ascii) (cur t : string) :
  split_from (String c "") 0 cur (String c t) = cur :: split_from (String c "") 0 "" t.
Proof.
  cbn [split_from String.prefix].
  destruct (ascii_dec c c) as [_|N]; [|congruence].
  rewrite prefix_nil. reflexivity.
Qed.

Lemma split_join_char (c : ascii) (pieces : list string) :
  pieces <> [] ->
  (forall p, In p pieces -> char_in c p = false) ->
  split (String.concat (String c "") pieces) (String c "") = pieces.
Proof.
  unfold split. induction pieces as [|p rest IH]; intros Hne Hall; [congruence|].
  destruct rest as [|q rest].
  - cbn [String.concat]. rewrite <- (append_nil_r p) at 1.
    rewrite split_char_pass by (apply Hall; left; reflexivity). reflexivity.
  - rewrite concat_cons by discriminate.
    rewrite split_char_pass by (apply Hall; left; reflexivity).
    cbn [append]. rewrite split_char_hit. f_equal.
    apply IH; [discriminate|]. intros x Hx. apply Hall. right. exact Hx.
Qed.

(** The same for the three gaps that separate the words of the first
    script, the words being tight. *)
Lemma split_gap3_pass (w cur t : string) :
  tight w = true ->
  split_from "   " 0 cur (w ++ t) = split_from "   " 0 (cur ++ w) t.
Proof.
  revert cur. induction w as [|a w IH]; intros cur Hw.
  - now rewrite append_nil_r.
  - cbn [tight] in Hw. cbn [append split_from].
    assert (Hp : String.prefix "   " (String a (w ++ t)) = false).
    { destruct (Ascii.eqb_spec a " ") as [->|Ha].
      - destruct w as [|b w]; [discriminate|].
        apply andb_true_iff in Hw. destruct Hw as [Hb _].
        cbn [append String.prefix].
        destruct (ascii_dec " " " ") as [_|N]; [|congruence].
        destruct (ascii_dec " " b) as [<-|_]; [discriminate | reflexivity].
      - cbn [String.prefix]. destruct (ascii_dec " " a) as [<-|_]; [congruence | reflexivity]. }
    rewrite Hp.
    assert (Hw' : tight w = true).
    { destruct (Ascii.eqb a " "); [|exact Hw].
      destruct w as [|b w]; [discriminate|].
      apply andb_true_iff in Hw. apply Hw. }
    rewrite (IH _ Hw'), append_assoc. reflexivity.
Qed.

Lemma split_gap3_hit (cur t : string) :
  split_from "   " 0 cur ("   " ++ t) = cur :: split_from "   " 0 "" t.
Proof.
  cbn [append split_from String.prefix String.length Nat.sub].
  destruct (ascii_dec " " " ") as [_|N]; [|congruence].
  rewrite prefix_nil. reflexivity.
Qed.

Lemma split_join_gap3 (ws : list string) :
  ws <> [] ->
  (forall w, In w ws -> tight w = true) ->
  split (String.concat "   " ws) "   " = ws.
Proof.
  unfold split. induction ws as [|w rest IH]; intros Hne Hall; [congruence|].
  destruct rest as [|v rest].
  - cbn [String.concat]. rewrite <- (append_nil_r w) at 1.
    rewrite split_gap3_pass by (apply Hall; left; reflexivity). reflexivity.
  - rewrite concat_cons by discriminate.
    rewrite split_gap3_pass by (apply Hall; left; reflexivity).
    rewrite split_gap3_hit. f_equal.
    apply IH; [discriminate|]. intros x Hx. apply Hall. right. exact Hx.
Qed.

Lemma tight_app (p s : string) :
  char_in " " p = false -> tight (p ++ s) = tight s.
Proof.
  induction p as [|a p IH]; intros Hp; [reflexivity|].
  simpl in Hp. apply orb_false_iff in Hp. destruct Hp as [Ha Hp].
  cbn [append tight]. rewrite Ha. apply IH. exact Hp.
Qed.

Lemma tight_join (codes : list string) :
  (forall code, In code codes -> code <> "" /\ char_in " " code = false) ->
  tight (String.concat " " codes) = true.
Proof.
  induction codes as [|c1 rest IH]; intros Hall; [reflexivity|].
  destruct rest as [|c2 rest].
  - cbn [String.concat]. rewrite <- (append_nil_r c1).
    rewrite tight_app by (apply Hall; left; reflexivity). reflexivity.
  - rewrite concat_cons by discriminate.
    rewrite tight_app by (apply Hall; left; reflexivity).
    assert (IH' : tight (String.concat " " (c2 :: rest)) = true)
      by (apply IH; intros x Hx; apply Hall; right; exact Hx).
    destruct (Hall c2 (or_intror (or_introl eq_refl))) as [Hne Hsp].
    destruct c2 as [|b c2]; [congruence|].
    simpl in Hsp. apply orb_false_iff in Hsp. destruct Hsp as [Hb _].
    assert (Hshape : exists X, String.concat " " (String b c2 :: rest) = String b X).
    { destruct rest; [exists c2; reflexivity|].
      rewrite concat_cons by discriminate. eexists. reflexivity. }
    destruct Hshape as [X HX]. rewrite HX in *.
    cbn [append tight]. cbn [tight] in IH'. rewrite Hb. simpl.
    rewrite Hb in IH'. exact IH'.
Qed.

Lemma all_in_weaken (small large s : string) :
  (forall c, char_in c small = true -> char_in c large = true) ->
  all_in small s = true -> all_in large s = true.
Proof.
  intros Hsub. induction s as [|a s IH]; [reflexivity|].
  cbn [all_in]. intros H. apply andb_true_iff in H. destruct H as [Ha H].
  rewrite (Hsub a Ha), (IH H). reflexivity.
Qed.

Lemma marks_are_symbols (c : ascii) : char_in c ".-" = true -> char_in c ".- " = true.
Proof.
  cbn [char_in]. destruct (Ascii.eqb "." c); [reflexivity|].
  destruct (Ascii.eqb "-" c); [reflexivity | discriminate].
Qed.

Lemma letters_of_joined_word (w : list string) :
  (forall code, In code w -> char_in " " code = false) ->
  String.concat "" (map letter_of (split (String.concat " " w) " "))
  = String.concat "" (map letter_of w).
Proof.
  intros Hw. destruct w as [|c w]; [reflexivity|].
  rewrite (split_join_char " " (c :: w)); [reflexivity | discriminate | exact Hw].
Qed.

Lemma translate_spec_of_message (word_sep : string) (words : list (list string)) :
  (forall w code, In w words -> In code w -> char_in " " code = false) ->
  (words <> [] ->
   split (String.concat word_sep (map (String.concat " ") words)) word_sep
   = map (String.concat " ") words) ->
  split "" word_sep = [""] ->
  translate_spec word_sep " " (message_of word_sep " " words) = strip (text_of words).
Proof.
  intros Hcodes Hsplit Hempty. unfold translate_spec, message_of, text_of. f_equal.
  destruct words as [|w ws].
  - cbn [map String.concat]. rewrite Hempty. reflexivity.
  - rewrite Hsplit by discriminate. rewrite map_map. f_equal.
    apply map_ext_in. intros x Hx. apply letters_of_joined_word.
    intros code Hc. apply (Hcodes x code Hx Hc).
Qed.

(** X11. Spelling and translating. Take words, each a list of letter codes
    made of dots and dashes. In the second script the message that joins
    the codes of a word by one gap and the words by the word-gap character
    translates to the letters of each word, the words one space apart, the
    whole trimmed. In the first script the same holds for the message that
    joins the words by three gaps, provided no code is empty. *)
Theorem X11_translate_of_spelled_words (words : list (list string)) :
  (forall w code, In w words -> In code w -> all_in ".-" code = true) ->
  V2.translate_to_text (message_of "|" " " words) = strip (text_of words)
  /\ ((forall w code, In w words -> In code w -> code <> "") ->
      V1.translate_to_text (message_of "   " " " words) = strip (text_of words)).
Proof.
  intros Hcodes.
  assert (Hgap : forall w code, In w words -> In code w -> char_in " " code = false).
  { intros w code Hw Hc. apply (not_in_alphabet ".-"); [apply (Hcodes w code Hw Hc) | reflexivity]. }
  split.
  - rewrite V2_translate_as_spec.
    apply translate_spec_of_message; [exact Hgap | | reflexivity].
    intros Hne. apply (split_join_char "|").
    + destruct words; [congruence | discriminate].
    + intros p Hp. apply in_map_iff in Hp. destruct Hp as (w & <- & Hw).
      apply (not_in_alphabet ".- "); [|reflexivity].
      apply all_in_concat; [reflexivity|].
      intros code Hc.
      apply (all_in_weaken ".-" ".- " code marks_are_symbols (Hcodes w code Hw Hc)).
  - intros Hnonempty. rewrite V1_translate_as_spec.
    apply translate_spec_of_message; [exact Hgap | | reflexivity].
    intros Hne. apply split_join_gap3.
    + destruct words; [congruence | discriminate].
    + intros p Hp. apply in_map_iff in Hp. destruct Hp as (w & <- & Hw).
      apply tight_join. intros code Hc. split.
      * apply (Hnonempty w code Hw Hc).
      * apply (Hgap w code Hw Hc).
Qed.

Lemma X11_witness :
  V2.translate_to_text "...|---|..." = "S O S"
  /\ V1.translate_to_text ".... ..   -- --- --" = "HI MOM".
Proof.
  assert (H2 : forall w code, In w [["..."]; ["---"]; ["..."]] -> In code w ->
                              all_in ".-" code = true).
  { intros w code Hw Hc. simpl in Hw.
    repeat (destruct Hw as [<- | Hw];
            [simpl in Hc; repeat (destruct Hc as [<- | Hc]; [reflexivity|]); contradiction|]).
    contradiction. }
  assert (H1 : forall w code, In w [["...."; ".."]; ["--"; "---"; "--"]] -> In code w ->
                              all_in ".-" code = true).
  { intros w code Hw Hc. simpl in Hw.
    repeat (destruct Hw as [<- | Hw];
            [simpl in Hc; repeat (destruct Hc as [<- | Hc]; [reflexivity|]); contradiction|]).
    contradiction. }
  assert (N1 : forall w code, In w [["...."; ".."]; ["--"; "---"; "--"]] -> In code w ->
                              code <> "").
  { intros w code Hw Hc. simpl in Hw.
    repeat (destruct Hw as [<- | Hw];
            [simpl in Hc; repeat (destruct Hc as [<- | Hc]; [discriminate|]); contradiction|]).
    contradiction. }
  split.
  - apply (proj1 (X11_translate_of_spelled_words [["..."]; ["---"]; ["..."]] H2)).
  - apply (proj2 (X11_translate_of_spelled_words
                    [["...."; ".."]; ["--"; "---"; "--"]] H1) N1).
Defined.

(** ** What [display_results] speaks *)

Lemma replace_char_from (c : ascii) (new s cur : string) :
  String.concat new (split_from (String c "") 0 cur s) = cur ++ subst_char c new s.
Proof.
  revert cur. induction s as [|a s IH]; intros cur.
  - simpl. now rewrite append_nil_r.
  - cbn [split_from String.prefix subst_char].
    destruct (ascii_dec c a) as [<-|Hne].
    + rewrite prefix_nil, Ascii.eqb_refl. cbn [String.length Nat.sub].
      rewrite concat_cons by apply split_from_not_nil.
      rewrite IH. reflexivity.
    + destruct (Ascii.eqb_spec a c) as [->|_]; [congruence|].
      rewrite IH, append_assoc. reflexivity.
Qed.

Lemma replace_char (c : ascii) (new s : string) :
  replace s (String c "") new = subst_char c new s.
Proof. unfold replace, split. apply replace_char_from. Qed.

Lemma subst_char_app (c : ascii) (new x y : string) :
  subst_char c new (x ++ y) = subst_char c new x ++ subst_char c new y.
Proof.
  induction x as [|a x IH]; [reflexivity|].
  cbn [append subst_char]. rewrite IH, append_assoc. reflexivity.
Qed.

Lemma spoken_char_by_replacing (a : ascii) :
  subst_char "|" " word gap "
    (subst_char "-" " dash " (if Ascii.eqb a "." then " dot " else String a ""))
  = spoken_char a.
Proof.
  unfold spoken_char. destruct (Ascii.eqb a "."); [reflexivity|].
  cbn [subst_char]. destruct (Ascii.eqb a "-"); [reflexivity|].
  cbn [append subst_char]. destruct (Ascii.eqb a "|"); reflexivity.
Qed.

(** X12. The three replacements that turn the decoded message into what
    the second script speaks act as one pass over the message: every dot
    becomes " dot ", every dash " dash ", every word-gap character
    " word gap ", and every other character stays; no replacement touches
    what an earlier one put in. *)
Theorem X12_spoken_morse_is_per_character (m : string) :
  V2.spoken_morse m = spoken m.
Proof.
  unfold V2.spoken_morse. rewrite !replace_char.
  induction m as [|a m IH]; [reflexivity|].
  cbn [subst_char spoken]. rewrite !subst_char_app, IH.
  rewrite spoken_char_by_replacing. reflexivity.
Qed.

(** ** The code table *)

Lemma dict_get_found (d : list (string * string)) (key default : string) :
  dict_get d key default <> default -> In (key, dict_get d key default) d.
Proof.
  induction d as [|[k v] d IH]; simpl; [congruence|].
  destruct (String.eqb_spec k key) as [->|Hne].
  - intros _. left. reflexivity.
  - intros H. right. apply IH. exact H.
Qed.

Lemma dict_get_first (d : list (string * string)) (k v default : string) :
  NoDup (map fst d) -> In (k, v) d -> dict_get d k default = v.
Proof.
  induction d as [|[k0 v0] d IH]; intros Hnd Hin; [contradiction|].
  simpl in Hnd. inversion Hnd as [|? ? Hnot Hnd']; subst.
  simpl. destruct Hin as [E | Hin].
  - injection E as -> ->. now rewrite String.eqb_refl.
  - destruct (String.eqb_spec k0 k) as [->|_].
    + exfalso. apply Hnot. apply (in_map fst _ _ Hin).
    + apply IH; assumption.
Qed.

Lemma value_determines_key (d : list (string * string)) (k1 k2 v : string) :
  NoDup (map snd d) -> In (k1, v) d -> In (k2, v) d -> k1 = k2.
Proof.
  induction d as [|[k0 v0] d IH]; intros Hnd H1 H2; [contradiction|].
  simpl in Hnd. inversion Hnd as [|? ? Hnot Hnd']; subst.
  destruct H1 as [E1 | H1]; destruct H2 as [E2 | H2].
  - congruence.
  - injection E1 as -> ->. exfalso. apply Hnot. apply (in_map snd _ _ H2).
  - injection E2 as -> ->. exfalso. apply Hnot. apply (in_map snd _ _ H1).
  - apply IH; assumption.
Qed.

Lemma table_codes_distinct : NoDup (map fst morse_to_alpha_numeric).
Proof. unfold morse_to_alpha_numeric. cbn [map fst]. all_distinct. Qed.

Lemma table_letters_distinct : NoDup (map snd morse_to_alpha_numeric).
Proof. unfold morse_to_alpha_numeric. cbn [map snd]. all_distinct. Qed.

(** X13. The code table decodes without ambiguity: every entry written in
    the table is the one a lookup of its code returns (no code is written
    twice), and two codes that give the same letter are the same code. *)
Theorem X13_table_is_unambiguous :
  (forall code letter, In (code, letter) morse_to_alpha_numeric -> letter_of code = letter)
  /\ (forall c1 c2, letter_of c1 <> "" -> letter_of c1 = letter_of c2 -> c1 = c2).
Proof.
  split.
  - intros code letter Hin. apply dict_get_first; [apply table_codes_distinct | exact Hin].
  - intros c1 c2 Hne Heq.
    assert (H1 : In (c1, letter_of c1) morse_to_alpha_numeric)
      by (apply dict_get_found; exact Hne).
    assert (H2 : In (c2, letter_of c2) morse_to_alpha_numeric)
      by (apply dict_get_found; change (letter_of c2 <> ""); rewrite <- Heq; exact Hne).
    rewrite <- Heq in H2.
    apply (value_determines_key _ _ _ _ table_letters_distinct H1 H2).
Qed.

Lemma X13_witness : letter_of "-.-." = "C".
Proof.
  apply (proj1 X13_table_is_unambiguous). simpl. do 2 right. left. reflexivity.
Defined.

(** ** Steering *)

(** X14. [adjust_heading] never stops or reverses a motor: in the first
    script the left speed is 25 or 26 and the right 25.1 or 26.1, in the
    second the left is 17 or 18.5 and the right 17.5 or 18.5. In both, the
    left motor is driven faster than the right exactly when the line sensor
    reads black (1) and the path sensor does not read green (3); the colour
    handed over by the loop plays no part. *)
Theorem X14_steering_speeds (color path_color line_color : Z) :
  let (l1, r1) := V1.adjust_heading color path_color line_color in
  let (l2, r2) := V2.adjust_heading color path_color line_color in
  (25 <= l1 /\ l1 <= 26 /\ 251 # 10 <= r1 /\ r1 <= 261 # 10)
  /\ (17 <= l2 /\ l2 <= 185 # 10 /\ 175 # 10 <= r2 /\ r2 <= 185 # 10)
  /\ (r1 < l1 <-> line_color = 1%Z /\ path_color <> 3%Z)
  /\ (r2 < l2 <-> line_color = 1%Z /\ path_color <> 3%Z)
  /\ (forall other, V1.adjust_heading other path_color line_color = (l1, r1)
                    /\ V2.adjust_heading other path_color line_color = (l2, r2)).
Proof.
  unfold V1.adjust_heading, V2.adjust_heading.
  destruct (Z.eqb_spec path_color 3) as [Hp | Hp];
    destruct (Z.eqb_spec line_color 1) as [Hl | Hl];
    (split; [repeat split; discriminate|]);
    (split; [repeat split; discriminate|]);
    (split; [split; [intros H; try discriminate H; try (split; assumption)
                    | intros [H1 H2]; try contradiction; try reflexivity]|]);
    (split; [split; [intros H; try discriminate H; try (split; assumption)
                    | intros [H1 H2]; try contradiction; try reflexivity]|]);
    intros other; split; reflexivity.
Qed.

(** ** How the first script's message ends *)

Lemma trailing_gaps_after (m : string) (n : nat) :
  (n <= trailing_gaps (m ++ repeat_nat " " n))%nat.
Proof.
  induction m as [|c m IH].
  - simpl. destruct (gaps_shape n) as [H _]. rewrite H. lia.
  - cbn [append trailing_gaps].
    destruct (Ascii.eqb c " " && (trailing_gaps (m ++ repeat_nat " " n)
                                  =? String.length (m ++ repeat_nat " " n))%nat); lia.
Qed.

(** ** The functions the translator calls against their specification *)

Lemma split_from_drop (sep : string) (k : nat) (cur t : string) :
  split_from sep k cur t = split_from sep 0 cur (drop k t).
Proof.
  revert t. induction k as [|k IH]; intros t; [reflexivity|].
  destruct t as [|c t]; [reflexivity|]. cbn [split_from drop]. apply IH.
Qed.

Lemma cut_none (sep s : string) :
  cut sep s = None -> forall cur, split_from sep 0 cur s = [cur ++ s].
Proof.
  induction s as [|c s IH]; intros Hcut cur.
  - simpl. now rewrite append_nil_r.
  - cbn [cut] in Hcut. cbn [split_from].
    destruct (String.prefix sep (String c s)); [discriminate|].
    destruct (cut sep s) as [[b a]|]; [discriminate|].
    rewrite (IH eq_refl), append_assoc. reflexivity.
Qed.

Lemma cut_some (sep s before after : string) :
  sep <> "" -> cut sep s = Some (before, after) ->
  forall cur, split_from sep 0 cur s = (cur ++ before) :: split_from sep 0 "" after.
Proof.
  intros Hsep. revert before. induction s as [|c s IH]; intros before Hcut cur.
  - cbn [cut] in Hcut. destruct sep; [congruence | discriminate].
  - cbn [cut] in Hcut. cbn [split_from].
    destruct (String.prefix sep (String c s)).
    + injection Hcut as <- <-. rewrite append_nil_r, split_from_drop.
      destruct sep as [|a sep']; [congruence|].
      replace (String.length (String a sep') - 1)%nat with (String.length sep')
        by (simpl; lia).
      reflexivity.
    + destruct (cut sep s) as [[b a]|]; [|discriminate].
      injection Hcut as <- <-.
      rewrite (IH b eq_refl), append_assoc. reflexivity.
Qed.

Lemma drop_length (n : nat) (s : string) :
  (String.length (drop n s) <= String.length s)%nat.
Proof.
  revert s. induction n as [|n IH]; intros s; [simpl; lia|].
  destruct s as [|c s]; [simpl; lia|]. cbn [drop String.length].
  specialize (IH s). lia.
Qed.

Lemma cut_shorter (sep s before after : string) :
  sep <> "" -> cut sep s = Some (before, after) ->
  (String.length after < String.length s)%nat.
Proof.
  intros Hsep. revert before. induction s as [|c s IH]; intros before Hcut.
  - cbn [cut] in Hcut. destruct sep; [congruence | discriminate].
  - cbn [cut] in Hcut.
    destruct (String.prefix sep (String c s)).
    + injection Hcut as _ <-. destruct sep as [|a sep']; [congruence|].
      cbn [String.length drop]. pose proof (drop_length (String.length sep') s). lia.
    + destruct (cut sep s) as [[b a]|]; [|discriminate].
      injection Hcut as _ <-. specialize (IH b eq_refl). cbn [String.length]. lia.
Qed.

Lemma split_from_pieces (sep : string) (fuel : nat) :
  sep <> "" ->
  forall s, (String.length s <= fuel)%nat -> split_from sep 0 "" s = pieces fuel sep s.
Proof.
  intros Hsep. induction fuel as [|fuel IH]; intros s Hlen.
  - destruct s; [reflexivity | simpl in Hlen; lia].
  - cbn [pieces]. destruct (cut sep s) as [[b a]|] eqn:Hcut.
    + rewrite (cut_some sep s b a Hsep Hcut ""). cbn [append]. f_equal.
      apply IH. pose proof (cut_shorter sep s b a Hsep Hcut). lia.
    + apply (cut_none sep s Hcut "").
Qed.

Lemma split_is_split_at (s sep : string) : sep <> "" -> split s sep = split_at sep s.
Proof.
  intros Hsep. unfold split, split_at. apply split_from_pieces; [exact Hsep | lia].
Qed.

Lemma isspace_is_whitespace (c : ascii) : isspace c = is_whitespace c.
Proof.
  destruct c as [[|] [|] [|] [|] [|] [|] [|] [|]]; vm_compute; reflexivity.
Qed.

Lemma lstrip_as_list (s : string) :
  list_ascii_of_string (lstrip s) = drop_whitespace (list_ascii_of_string s).
Proof.
  induction s as [|c s IH]; [reflexivity|].
  cbn [lstrip list_ascii_of_string drop_whitespace].
  rewrite <- isspace_is_whitespace. destruct (isspace c); [exact IH | reflexivity].
Qed.

Lemma drop_whitespace_snoc (x : list ascii) (c : ascii) :
  drop_whitespace (x ++ [c])
  = match drop_whitespace x with
    | [] => if is_whitespace c then [] else [c]
    | y => (y ++ [c])%list
    end.
Proof.
  induction x as [|a x IH]; [reflexivity|].
  cbn [app drop_whitespace]. destruct (is_whitespace a); [exact IH | reflexivity].
Qed.

Lemma rstrip_as_list (s : string) :
  list_ascii_of_string (rstrip s)
  = rev (drop_whitespace (rev (list_ascii_of_string s))).
Proof.
  induction s as [|c s IH]; [reflexivity|].
  cbn [rstrip list_ascii_of_string rev]. rewrite drop_whitespace_snoc.
  rewrite <- isspace_is_whitespace.
  destruct (drop_whitespace (rev (list_ascii_of_string s))) as [|y ys] eqn:E.
  - cbn [rev] in IH. destruct (rstrip s) as [|a r]; [|discriminate].
    cbn [String.eqb]. rewrite andb_true_r. destruct (isspace c); reflexivity.
  - assert (Hne : rstrip s <> "").
    { intros H. rewrite H in IH. cbn in IH.
      destruct (rev ys) as [|z zs]; cbn in IH; discriminate. }
    destruct (String.eqb_spec (rstrip s) "") as [H|_]; [congruence|].
    rewrite andb_false_r. cbn [list_ascii_of_string].
    rewrite rev_app_distr. cbn [rev app]. rewrite IH. reflexivity.
Qed.

Lemma strip_is_trim (s : string) : strip s = trim s.
Proof.
  unfold strip, trim.
  rewrite <- (string_of_list_ascii_of_string (rstrip (lstrip s))).
  rewrite rstrip_as_list, lstrip_as_list. reflexivity.
Qed.

Lemma dict_get_as_find (d : list (string * string)) (code : string) :
  dict_get d code ""
  = match find (fun entry => String.eqb (fst entry) code) d with
    | Some entry => snd entry
    | None => ""
    end.
Proof.
  induction d as [|[k v] d IH]; [reflexivity|].
  cbn [dict_get find fst]. destruct (String.eqb k code); [reflexivity | exact IH].
Qed.

Lemma letter_of_is_code_letter (code : string) : letter_of code = code_letter code.
Proof. apply dict_get_as_find. Qed.

Lemma find_entry (d : list (string * string)) (code letter : string) :
  NoDup (map fst d) -> In (code, letter) d ->
  find (fun entry => String.eqb (fst entry) code) d = Some (code, letter).
Proof.
  induction d as [|[k v] d IH]; intros Hnd Hin; [contradiction|].
  simpl in Hnd. inversion Hnd as [|? ? Hnot Hnd']; subst.
  cbn [find fst]. destruct Hin as [E | Hin].
  - injection E as -> ->. now rewrite String.eqb_refl.
  - destruct (String.eqb_spec k code) as [->|_].
    + exfalso. apply Hnot. apply (in_map fst _ _ Hin).
    + apply IH; assumption.
Qed.

Lemma find_no_entry (d : list (string * string)) (code : string) :
  (forall letter, ~ In (code, letter) d) ->
  find (fun entry => String.eqb (fst entry) code) d = None.
Proof.
  induction d as [|[k v] d IH]; intros Hnot; [reflexivity|].
  cbn [find fst]. destruct (String.eqb_spec k code) as [->|_].
  - exfalso. apply (Hnot v). left. reflexivity.
  - apply IH. intros l Hl. apply (Hnot l). right. exact Hl.
Qed.

Lemma translate_on_boundaries (word_sep : string) (m : string) :
  word_sep <> "" ->
  translate_spec word_sep " " m = translate_by_boundaries word_sep " " m.
Proof.
  intros Hsep. unfold translate_spec, translate_by_boundaries.
  rewrite strip_is_trim, (split_is_split_at m word_sep Hsep). f_equal. f_equal.
  apply map_ext. intros w.
  rewrite (split_is_split_at w " ") by discriminate. f_equal.
  apply map_ext. intros code. apply letter_of_is_code_letter.
Qed.

(** C5. In both scripts [translate_to_text] computes what the specification
    words, every notion taken on its own: the message is cut into words at
    the word boundaries (three gaps in the first script, the word-gap
    character in the second), leftmost boundary first; each word is cut into
    letter codes at the gaps; every code gives the letter of its entry in
    the table and the empty string when it has none; the letters of a word
    are concatenated, the words joined by one space, and the whitespace at
    both ends removed. So ".-", "--." and "..." give "A", "G" and "S", two
    words of these codes give "AG S", and a code that is not in the table
    is left out without stopping the translation. *)
Theorem C5_translate_by_boundaries :
  (forall m, V1.translate_to_text m = translate_by_boundaries "   " " " m)
  /\ (forall m, V2.translate_to_text m = translate_by_boundaries "|" " " m)
  /\ (forall code letter,
         In (code, letter) morse_to_alpha_numeric -> code_letter code = letter)
  /\ (forall code,
         (forall letter, ~ In (code, letter) morse_to_alpha_numeric) ->
         code_letter code = "")
  /\ (V1.translate_to_text ".-" = "A" /\ V1.translate_to_text "--." = "G"
      /\ V1.translate_to_text "..." = "S"
      /\ V1.translate_to_text ".- --.   ..." = "AG S"
      /\ V1.translate_to_text "  .- ...... -   ...... " = "AT")
  /\ (V2.translate_to_text ".-" = "A" /\ V2.translate_to_text "--." = "G"
      /\ V2.translate_to_text "..." = "S"
      /\ V2.translate_to_text ".- --.|..." = "AG S"
      /\ V2.translate_to_text " .- ...... -|......|" = "AT").
Proof.
  split; [|split; [|split; [|split; [|split]]]].
  - intros m. rewrite V1_translate_as_spec. apply translate_on_boundaries. discriminate.
  - intros m. rewrite V2_translate_as_spec. apply translate_on_boundaries. discriminate.
  - intros code letter Hin. unfold code_letter.
    rewrite (find_entry _ code letter table_codes_distinct Hin). reflexivity.
  - intros code Hnot. unfold code_letter. rewrite (find_no_entry _ code Hnot). reflexivity.
  - repeat split; reflexivity.
  - repeat split; reflexivity.
Qed.

Lemma C5_witness :
  code_letter "--." = "G" /\ code_letter "......" = "".
Proof.
  destruct C5_translate_by_boundaries as (_ & _ & Hknown & Hunknown & _).
  split.
  - apply Hknown. simpl. do 6 right. left. reflexivity.
  - apply Hunknown. intros letter Hin. simpl in Hin.
    repeat (destruct Hin as [Hin | Hin]; [discriminate Hin|]).
    exact Hin.
Defined.

(** ** One pass of the loop with float arithmetic, case by case *)

Section FloatLoopFacts.

Variable F : FloatOps.
Variable obstacle_nearby : Tick -> bool.
Variable interpret : Q -> State -> result State.
Variable gap : string.

Lemma float_same_color (st : State) (tk : Tick) :
  color_changed (alias_color (sensor_color tk)) (last_detected_color st) = false ->
  loop_body_float F obstacle_nearby interpret gap st tk
  = Ok (st, obstacle_nearby tk || message_ended gap st).
Proof.
  intros H. unfold loop_body_float. rewrite H. reflexivity.
Qed.

Lemma float_not_decodable (st : State) (tk : Tick) :
  color_changed (alias_color (sensor_color tk)) (last_detected_color st) = true ->
  decodable (last_detected_color st) = false ->
  loop_body_float F obstacle_nearby interpret gap st tk
  = Ok (set_last st (alias_color (sensor_color tk)),
        obstacle_nearby tk
        || message_ended gap (set_last st (alias_color (sensor_color tk)))).
Proof.
  intros Hc Hd. unfold loop_body_float, on_change_float. rewrite Hc, Hd. reflexivity.
Qed.

Lemma float_interval_ok (st st' : State) (tk : Tick) :
  color_changed (alias_color (sensor_color tk)) (last_detected_color st) = true ->
  decodable (last_detected_color st) = true ->
  interpret (fsub F (t_read tk) (signal_start_time st)) st = Ok st' ->
  loop_body_float F obstacle_nearby interpret gap st tk
  = Ok (set_last (set_start st' (t_reset tk)) (alias_color (sensor_color tk)),
        obstacle_nearby tk
        || message_ended gap
             (set_last (set_start st' (t_reset tk)) (alias_color (sensor_color tk)))).
Proof.
  intros Hc Hd Hi. unfold loop_body_float, on_change_float. rewrite Hc, Hd, Hi.
  reflexivity.
Qed.

Lemma float_interval_raise (st : State) (tk : Tick) (e : exn) :
  color_changed (alias_color (sensor_color tk)) (last_detected_color st) = true ->
  decodable (last_detected_color st) = true ->
  interpret (fsub F (t_read tk) (signal_start_time st)) st = Raise e ->
  loop_body_float F obstacle_nearby interpret gap st tk = Raise e.
Proof.
  intros Hc Hd Hi. unfold loop_body_float, on_change_float. rewrite Hc, Hd, Hi.
  reflexivity.
Qed.

Lemma float_step_emits (st : State) (tk : Tick) (x : string) :
  color_changed (alias_color (sensor_color tk)) (last_detected_color st) = true ->
  decodable (last_detected_color st) = true ->
  interpret (fsub F (t_read tk) (signal_start_time st)) st = Ok (emit st x) ->
  exists st1 b,
    loop_body_float F obstacle_nearby interpret gap st tk = Ok (st1, b)
    /\ first_signal_duration st1 = first_signal_duration st
    /\ decoded_message st1 = decoded_message st ++ x
    /\ b = obstacle_nearby tk || message_ended gap st1.
Proof.
  intros Hc Hd Hi. eexists. eexists. split.
  - apply (float_interval_ok st _ tk Hc Hd Hi).
  - repeat split; reflexivity.
Qed.

End FloatLoopFacts.

Lemma V1_float_red (F : FloatOps) (st : State) (d u : Q) :
  last_detected_color st = Some RED ->
  first_signal_duration st = Some u ->
  V1.interpret_float F d st = Ok (emit st (if Qltb d (fmul F 1 u) then "." else "-")).
Proof.
  intros Hl Hf. unfold V1.interpret_float, V1.interpret_red_float, unit_of.
  rewrite Hl, Hf. simpl. destruct (Qltb d (fmul F 1 u)); reflexivity.
Qed.

Lemma V1_float_white (F : FloatOps) (st : State) (d u : Q) :
  last_detected_color st = Some WHITE ->
  first_signal_duration st = Some u ->
  ~ u == 0 ->
  V1.interpret_float F d st
  = match fdiv F d u with
    | Some q => Ok (emit st (str_mul " " (round q)))
    | None => Raise OverflowError
    end.
Proof.
  intros Hl Hf Hu. unfold V1.interpret_float, V1.interpret_white_float.
  rewrite Hl, Hf. simpl.
  destruct (Qeq_bool u 0) eqn:E; [|destruct (fdiv F d u); reflexivity].
  apply Qeq_bool_iff in E. contradiction.
Qed.

Ltac compare_floats :=
  repeat match goal with
         | H : Qltb _ _ = true |- _ => apply Qltb_lt in H
         | H : Qltb _ _ = false |- _ => apply Qltb_ge in H
         end.

Ltac split_comparisons :=
  repeat match goal with
         | |- context [Qltb ?x ?y] => destruct (Qltb x y) eqn:?; cbn
         end;
  compare_floats.

Ltac pick_symbols x y :=
  exists x, y;
  split; [rewrite ?append_assoc, ?append_nil_r; reflexivity|];
  repeat split; intros; try reflexivity; exfalso; lra.

Lemma V2_float_red (F : FloatOps) (st : State) (d u : Q) :
  last_detected_color st = Some RED ->
  first_signal_duration st = Some u ->
  exists mark tail,
    V2.interpret_float F d st = Ok (emit st (mark ++ tail))
    /\ (d < fmul F lit_0_2 u -> mark = ".")
    /\ (fmul F lit_0_2 u < d -> mark = "-")
    /\ (d == fmul F lit_0_2 u -> mark = "")
    /\ (fmul F lit_0_5 u < d -> tail = "|")
    /\ (d <= fmul F lit_0_5 u -> tail = "").
Proof.
  intros Hl Hf. destruct st as [l s f m]. simpl in Hl, Hf. subst l f.
  unfold V2.interpret_float, V2.is_color, unit_of, emit, lit_0_2, lit_0_5. cbn.
  split_comparisons;
    first [ pick_symbols "." "|" | pick_symbols "." "" | pick_symbols "-" "|"
          | pick_symbols "-" "" | pick_symbols "" "|" | pick_symbols "" "" ].
Qed.

Lemma V2_float_white (F : FloatOps) (st : State) (d u : Q) :
  last_detected_color st = Some WHITE ->
  first_signal_duration st = Some u ->
  exists sep tail,
    V2.interpret_float F d st = Ok (emit st (sep ++ tail))
    /\ (fmul F lit_0_2 u < d /\ d < fmul F lit_0_5 u -> sep = " ")
    /\ (d <= fmul F lit_0_2 u \/ fmul F lit_0_5 u <= d -> sep = "")
    /\ (fmul F lit_0_5 u < d -> tail = "|")
    /\ (d <= fmul F lit_0_5 u -> tail = "").
Proof.
  intros Hl Hf. destruct st as [l s f m]. simpl in Hl, Hf. subst l f.
  unfold V2.interpret_float, V2.is_color, unit_of, emit, lit_0_2, lit_0_5. cbn.
  split_comparisons;
    first [ pick_symbols " " "|" | pick_symbols " " "" | pick_symbols "" "|"
          | pick_symbols "" "" ].
Qed.

(** C1. A red interval closed in a calibrated session, with the float
    arithmetic of the scripts; [d] is the duration the pass computes. The
    first script compares [d] with the product of 1 and the unit duration,
    which is the unit duration itself: it appends a dot when [d] is below
    the unit duration and a dash otherwise. The second script compares [d]
    with the float product of 0.2 and the unit duration: a dot below it, a
    dash above it, nothing when equal, and a word-gap character after that
    when [d] exceeds the float product of 0.5 and the unit duration. *)
Theorem C1_mark_dot_or_dash (F : FloatOps) (st : State) (tk : Tick) (u : Q) :
  last_detected_color st = Some RED ->
  first_signal_duration st = Some u ->
  color_changed (alias_color (sensor_color tk)) (Some RED) = true ->
  let d := fsub F (t_read tk) (signal_start_time st) in
  (fmul F 1 u == u ->
   exists st1 b,
     V1.loop_body_float F st tk = Ok (st1, b)
     /\ first_signal_duration st1 = Some u
     /\ (d < u -> decoded_message st1 = decoded_message st ++ V1.dot)
     /\ (u <= d -> decoded_message st1 = decoded_message st ++ V1.dash))
  /\ (exists st2 b mark tail,
         V2.loop_body_float F st tk = Ok (st2, b)
         /\ first_signal_duration st2 = Some u
         /\ decoded_message st2 = decoded_message st ++ (mark ++ tail)
         /\ (d < fmul F lit_0_2 u -> mark = V2.dot)
         /\ (fmul F lit_0_2 u < d -> mark = V2.dash)
         /\ (d == fmul F lit_0_2 u -> mark = "")
         /\ (fmul F lit_0_5 u < d -> tail = V2.word_gap)
         /\ (d <= fmul F lit_0_5 u -> tail = "")).
Proof.
  intros Hl Hf Hc d.
  assert (Hc' : color_changed (alias_color (sensor_color tk)) (last_detected_color st) = true)
    by (rewrite Hl; exact Hc).
  assert (Hd : decodable (last_detected_color st) = true) by (rewrite Hl; reflexivity).
  split.
  - intros Hone.
    destruct (float_step_emits F V1.obstacle_nearby (V1.interpret_float F) V1.gap st tk _
                Hc' Hd (V1_float_red F st d u Hl Hf))
      as (st1 & b & Hstep & H1 & Hm & _).
    exists st1, b. split; [exact Hstep|]. split; [congruence|].
    rewrite Hm. split; intros Hcmp.
    + assert (E : Qltb d (fmul F 1 u) = true) by (apply Qltb_lt; lra).
      now rewrite E.
    + assert (E : Qltb d (fmul F 1 u) = false) by (apply Qltb_ge; lra).
      now rewrite E.
  - destruct (V2_float_red F st d u Hl Hf) as (mark & tail & Hi & Hrest).
    destruct (float_step_emits F V2.obstacle_nearby (V2.interpret_float F) V2.gap st tk _
                Hc' Hd Hi)
      as (st2 & b & Hstep & H1 & Hm & _).
    exists st2, b, mark, tail. split; [exact Hstep|]. split; [congruence|].
    split; [exact Hm | exact Hrest].
Qed.


(** ** What the loop measures *)

Lemma timed_runs_colors (F : FloatOps) (ticks : list Tick) (l : Z) (start : Q) :
  map fst (timed_runs F (Some l) start ticks)
  = filter is_signal (closed_runs (l :: colors_of ticks)).
Proof.
  revert l start. induction ticks as [|tk rest IH]; intros l start; [reflexivity|].
  unfold closed_runs in *.
  cbn [colors_of map timed_runs run_colors]. fold (colors_of rest).
  destruct (Z.eqb_spec l (alias_color (sensor_color tk))) as [<-|Hne].
  - apply IH.
  - change (match colors_of rest with
            | [] => [alias_color (sensor_color tk)]
            | c' :: _ =>
                if (alias_color (sensor_color tk) =? c')%Z
                then run_colors (colors_of rest)
                else alias_color (sensor_color tk) :: run_colors (colors_of rest)
            end)
      with (run_colors (alias_color (sensor_color tk) :: colors_of rest)).
    pose proof (run_colors_not_nil (alias_color (sensor_color tk)) (colors_of rest)) as Hnn.
    assert (Hrl : removelast (l :: run_colors (alias_color (sensor_color tk) :: colors_of rest))
                  = l :: removelast (run_colors (alias_color (sensor_color tk) :: colors_of rest))).
    { cbn [removelast].
      destruct (run_colors (alias_color (sensor_color tk) :: colors_of rest));
        [congruence | reflexivity]. }
    rewrite Hrl. cbn [filter].
    destruct (is_signal l); cbn [map fst]; rewrite IH; reflexivity.
Qed.

Lemma timed_runs_colors_held (F : FloatOps) (ticks : list Tick) (current : option Z)
      (start : Q) :
  map fst (timed_runs F current start ticks)
  = filter is_signal
           (closed_runs (match current with Some l => [l] | None => [] end
                         ++ colors_of ticks)%list).
Proof.
  destruct current as [l|]; [apply timed_runs_colors|].
  destruct ticks as [|tk rest]; [reflexivity|].
  cbn [timed_runs app]. apply timed_runs_colors.
Qed.

Section Measuring.

Variable F : FloatOps.
Variable obstacle_nearby : Tick -> bool.
Variable interpret : Q -> State -> result State.
Variable gap : string.

(** The state a pass hands on holds the colour just read (once a colour has
    changed) and the timer, restarted exactly when an interval was
    measured, whatever the interpretation did to the rest of the state:
    the loop carries the segmenter of the specification. *)
Lemma measured_as_timed_runs (ticks : list Tick) (st : State) :
  measured F obstacle_nearby interpret gap ticks st
  = timed_runs F (last_detected_color st) (signal_start_time st)
               (ticks_read F obstacle_nearby interpret gap ticks st).
Proof.
  revert st. induction ticks as [|tk rest IH]; intros st; [reflexivity|].
  cbn [measured ticks_read timed_runs]. unfold measured_in_pass.
  destruct (last_detected_color st) as [l|] eqn:Hl.
  - cbn [color_changed].
    destruct (Z.eqb_spec l (alias_color (sensor_color tk))) as [E|Hne]; cbn [negb].
    + assert (Hc : color_changed (alias_color (sensor_color tk)) (last_detected_color st)
                   = false) by (rewrite Hl; cbn; rewrite E, Z.eqb_refl; reflexivity).
      rewrite (float_same_color F obstacle_nearby interpret gap st tk Hc).
      cbn [app]. destruct (obstacle_nearby tk || message_ended gap st); [reflexivity|].
      rewrite IH, Hl. reflexivity.
    + assert (Hc : color_changed (alias_color (sensor_color tk)) (last_detected_color st)
                   = true).
      { rewrite Hl. cbn. destruct (Z.eqb_spec l (alias_color (sensor_color tk)));
          [contradiction | reflexivity]. }
      change (decodable (Some l)) with (is_signal l).
      destruct (is_signal l) eqn:Hs.
      * assert (Hd : decodable (last_detected_color st) = true) by (rewrite Hl; exact Hs).
        cbn [app]. f_equal.
        destruct (interpret (fsub F (t_read tk) (signal_start_time st)) st) as [st1|e] eqn:Hi.
        -- rewrite (float_interval_ok F obstacle_nearby interpret gap st st1 tk Hc Hd Hi).
           match goal with |- context [if ?b then _ else _] => destruct b end;
             [reflexivity|].
           rewrite IH. reflexivity.
        -- rewrite (float_interval_raise F obstacle_nearby interpret gap st tk e Hc Hd Hi).
           reflexivity.
      * assert (Hd : decodable (last_detected_color st) = false) by (rewrite Hl; exact Hs).
        rewrite (float_not_decodable F obstacle_nearby interpret gap st tk Hc Hd).
        cbn [app].
        match goal with |- context [if ?b then _ else _] => destruct b end;
          [reflexivity|].
        rewrite IH. reflexivity.
  - assert (Hc : color_changed (alias_color (sensor_color tk)) (last_detected_color st)
                 = true) by (rewrite Hl; reflexivity).
    assert (Hd : decodable (last_detected_color st) = false) by (rewrite Hl; reflexivity).
    rewrite (float_not_decodable F obstacle_nearby interpret gap st tk Hc Hd).
    cbn [color_changed app].
    match goal with |- context [if ?b then _ else _] => destruct b end;
      [reflexivity|].
    rewrite IH. reflexivity.
Qed.

Lemma measured_colors (ticks : list Tick) (st : State) :
  map fst (measured F obstacle_nearby interpret gap ticks st)
  = filter is_signal
           (closed_runs (held st
                         ++ colors_of (ticks_read F obstacle_nearby interpret gap ticks st))%list).
Proof.
  rewrite measured_as_timed_runs. apply timed_runs_colors_held.
Qed.

Lemma ticks_read_all (ticks : list Tick) (st st' : State) :
  decode_path_float F obstacle_nearby interpret gap ticks st = Ok (st', Continue) ->
  ticks_read F obstacle_nearby interpret gap ticks st = ticks.
Proof.
  revert st. induction ticks as [|tk rest IH]; intros st Hrun; [reflexivity|].
  cbn [decode_path_float ticks_read] in *.
  destruct (loop_body_float F obstacle_nearby interpret gap st tk) as [[s1 b]|e];
    cbn [bind snd fst] in Hrun; [|discriminate].
  destruct b; [discriminate|]. f_equal. apply (IH s1 Hrun).
Qed.

End Measuring.

(** C6. What either script measures on a stream, with its two clock reads
    per pass and its float subtraction. On the ticks it reads before it
    stops (all of them when it is still running at the end), the loop
    measures exactly one interval for every closed maximal run of red or
    white, in order, and none for a run of another colour or for the run
    still open. Each duration is the first clock read of the closing pass
    minus the timer, and the timer is restarted, at the second clock read,
    only by a pass that measures: the durations are those of [timed_runs],
    not pieces that add up to the span of the stream. *)
Theorem C6_loop_measures_signal_runs (F : FloatOps) (ticks : list Tick) (st : State) :
  (V1.measured F ticks st
   = timed_runs F (last_detected_color st) (signal_start_time st) (V1.ticks_read F ticks st)
   /\ map fst (V1.measured F ticks st)
      = filter is_signal (closed_runs (held st ++ colors_of (V1.ticks_read F ticks st))%list)
   /\ (forall st', V1.decode_path_float F ticks st = Ok (st', Continue) ->
                   V1.ticks_read F ticks st = ticks))
  /\ (V2.measured F ticks st
      = timed_runs F (last_detected_color st) (signal_start_time st) (V2.ticks_read F ticks st)
      /\ map fst (V2.measured F ticks st)
         = filter is_signal (closed_runs (held st ++ colors_of (V2.ticks_read F ticks st))%list)
      /\ (forall st', V2.decode_path_float F ticks st = Ok (st', Continue) ->
                      V2.ticks_read F ticks st = ticks)).
Proof.
  split; (split; [|split]).
  - apply measured_as_timed_runs.
  - apply measured_colors.
  - intros st'. apply ticks_read_all.
  - apply measured_as_timed_runs.
  - apply measured_colors.
  - intros st'. apply ticks_read_all.
Qed.

(** The original reading of C1 fails in the second script: with a unit
    duration of 1.0 a red interval of 0.5 is below the unit duration and is
    decoded as a dash. *)
Lemma C1_counterexample_second_script :
  let st := mkState (Some RED) 0 (Some 1) "" in
  let tk := mkTick WHITE 255 (1 # 2) (1 # 2) in
  fsub binary64 (t_read tk) (signal_start_time st) < 1
  /\ exists st', V2.loop_body_float binary64 st tk = Ok (st', false)
                 /\ decoded_message st' = "-"
                 /\ decoded_message st' <> decoded_message st ++ ".".
Proof.
  cbn zeta. split; [vm_compute; reflexivity|].
  eexists. split; [vm_compute; reflexivity|].
  split; [reflexivity | discriminate].
Qed.

(** With binary64 arithmetic and a unit duration of 1.0 the first script
    decodes a red interval of 0.5 as a dot and one of 1.5 as a dash; in the
    second script, with a unit duration of 3.0, a red interval of
    0.6000000000000001, which is the float product of 0.2 and 3.0, is
    neither below nor above the threshold and appends nothing. *)
Lemma C1_witness :
  let st := mkState (Some RED) 0 (Some 1) "" in
  (exists st1 b, V1.loop_body_float binary64 st (mkTick WHITE 255 (1 # 2) (1 # 2))
                 = Ok (st1, b)
                 /\ decoded_message st1 = ".")
  /\ (exists st1 b, V1.loop_body_float binary64 st (mkTick WHITE 255 (3 # 2) (3 # 2))
                    = Ok (st1, b)
                    /\ decoded_message st1 = "-")
  /\ (exists st2 b,
         V2.loop_body_float binary64 (mkState (Some RED) 0 (Some 3) "")
           (mkTick WHITE 255 (1351079888211149 # 2251799813685248)
                   (1351079888211149 # 2251799813685248))
         = Ok (st2, b)
         /\ decoded_message st2 = "").
Proof.
  cbn zeta. split; [|split].
  - pose proof (C1_mark_dot_or_dash binary64 (mkState (Some RED) 0 (Some 1) "")
                  (mkTick WHITE 255 (1 # 2) (1 # 2)) 1 eq_refl eq_refl eq_refl) as H.
    cbv zeta in H. destruct H as [H _].
    assert (Hone : fmul binary64 1 1 == 1) by (vm_compute; reflexivity).
    destruct (H Hone) as (st1 & b & Hstep & _ & Hdot & _).
    exists st1, b. split; [exact Hstep|]. apply Hdot. vm_compute. reflexivity.
  - pose proof (C1_mark_dot_or_dash binary64 (mkState (Some RED) 0 (Some 1) "")
                  (mkTick WHITE 255 (3 # 2) (3 # 2)) 1 eq_refl eq_refl eq_refl) as H.
    cbv zeta in H. destruct H as [H _].
    assert (Hone : fmul binary64 1 1 == 1) by (vm_compute; reflexivity).
    destruct (H Hone) as (st1 & b & Hstep & _ & _ & Hdash).
    exists st1, b. split; [exact Hstep|]. apply Hdash. vm_compute. discriminate.
  - pose proof (C1_mark_dot_or_dash binary64 (mkState (Some RED) 0 (Some 3) "")
                  (mkTick WHITE 255 (1351079888211149 # 2251799813685248)
                          (1351079888211149 # 2251799813685248)) 3
                  eq_refl eq_refl eq_refl) as H.
    cbv zeta in H. destruct H as [_ (st2 & b & mark & tail & Hstep & _ & Hm & _ & _ & He & _ & Ht)].
    exists st2, b. split; [exact Hstep|].
    rewrite Hm, He, Ht; [reflexivity | vm_compute; discriminate | vm_compute; reflexivity].
Defined.



(** The original reading of C6 fails on the samples white at 1, green at 2,
    red at 4, white at 5 read by a session initialised at 0: three runs are
    closed, two intervals are measured, and their durations add up to 5,
    not to the 4 seconds between the first and the last sample. *)
Lemma C6_counterexample_runs_and_sum :
  let ticks := map tick_of_sample
                   [mkSample WHITE 1; mkSample 3 2; mkSample RED 4; mkSample WHITE 5] in
  let ivs := V1.measured binary64 ticks (initialize 0) in
  ivs = [(WHITE, 2); (RED, 3)]
  /\ V2.measured binary64 ticks (initialize 0) = ivs
  /\ V1.ticks_read binary64 ticks (initialize 0) = ticks
  /\ closed_runs (colors_of ticks) = [WHITE; 3%Z; RED]
  /\ length ivs <> length (closed_runs (colors_of ticks))
  /\ ~ sum_durations ivs == 5 - 1.
Proof.
  cbn zeta. split; [vm_compute; reflexivity|].
  split; [vm_compute; reflexivity|].
  split; [vm_compute; reflexivity|].
  split; [reflexivity|]. split; [vm_compute; discriminate|].
  vm_compute. discriminate.
Qed.

(** With two clock reads per pass (white read at 1 with the timer restart
    at 1.25, green at 2 and 2.25, red at 4 and 4.25, white at 5 and 5.25)
    and a session initialised at 0, the loop is still running after the last
    tick, so it has read them all; it measures the white run from the
    initialisation to the first read of the pass that closes it, and the
    red run from the restart in that pass to the first read of the pass
    that closes the red run. *)
Lemma C6_witness :
  let ticks := [mkTick WHITE 255 1 (5 # 4); mkTick 3 255 2 (9 # 4);
                mkTick RED 255 4 (17 # 4); mkTick WHITE 255 5 (21 # 4)] in
  V1.ticks_read binary64 ticks (initialize 0) = ticks
  /\ V1.measured binary64 ticks (initialize 0) = [(WHITE, 2); (RED, 11 # 4)].
Proof.
  cbn zeta.
  destruct (C6_loop_measures_signal_runs binary64
              [mkTick WHITE 255 1 (5 # 4); mkTick 3 255 2 (9 # 4);
               mkTick RED 255 4 (17 # 4); mkTick WHITE 255 5 (21 # 4)]
              (initialize 0)) as [(Hm & _ & Hall) _].
  assert (Hread : V1.ticks_read binary64
                    [mkTick WHITE 255 1 (5 # 4); mkTick 3 255 2 (9 # 4);
                     mkTick RED 255 4 (17 # 4); mkTick WHITE 255 5 (21 # 4)]
                    (initialize 0)
                  = [mkTick WHITE 255 1 (5 # 4); mkTick 3 255 2 (9 # 4);
                     mkTick RED 255 4 (17 # 4); mkTick WHITE 255 5 (21 # 4)]).
  { apply (Hall (mkState (Some WHITE) (21 # 4) (Some 2) "-")). vm_compute. reflexivity. }
  split; [exact Hread|].
  rewrite Hm, Hread. vm_compute. reflexivity.
Defined.

(** ** Calibrated runs with float arithmetic *)

Lemma concat_empty_cons (x : string) (l : list string) :
  String.concat "" (x :: l) = x ++ String.concat "" l.
Proof.
  destruct l as [|y l]; [simpl; symmetry; apply append_nil_r | reflexivity].
Qed.

Lemma spelled_app (symbols : Z * Q -> string) (a b : list (Z * Q)) :
  spelled symbols (a ++ b)%list = spelled symbols a ++ spelled symbols b.
Proof.
  unfold spelled. induction a as [|x a IH]; [reflexivity|].
  cbn [app map]. rewrite !concat_empty_cons, IH, append_assoc. reflexivity.
Qed.

Section CalibratedFloatRuns.

Variable F : FloatOps.
Variable obstacle_nearby : Tick -> bool.
Variable interpret : Q -> State -> result State.
Variable gap : string.
Variable u : Q.
Variable symbols : Z * Q -> string.
Variable fails : Z * Q -> bool.

Hypothesis interpret_cases : forall d st l,
  first_signal_duration st = Some u ->
  last_detected_color st = Some l ->
  is_signal l = true ->
  interpret d st
  = if fails (l, d) then Raise OverflowError else Ok (emit st (symbols (l, d))).

Lemma calibrated_float_step (st : State) (tk : Tick) :
  first_signal_duration st = Some u ->
  if existsb fails (measured_in_pass F st tk)
  then loop_body_float F obstacle_nearby interpret gap st tk = Raise OverflowError
  else exists st1 b,
      loop_body_float F obstacle_nearby interpret gap st tk = Ok (st1, b)
      /\ first_signal_duration st1 = Some u
      /\ decoded_message st1
         = decoded_message st ++ spelled symbols (measured_in_pass F st tk).
Proof.
  intros Hf. unfold measured_in_pass.
  destruct (color_changed (alias_color (sensor_color tk)) (last_detected_color st)) eqn:Hc.
  - destruct (last_detected_color st) as [l|] eqn:Hl.
    + change (decodable (Some l)) with (is_signal l).
      destruct (is_signal l) eqn:Hs.
      * assert (Hd : decodable (last_detected_color st) = true) by (rewrite Hl; exact Hs).
        rewrite <- Hl in Hc.
        pose proof (interpret_cases (fsub F (t_read tk) (signal_start_time st)) st l
                      Hf Hl Hs) as Hi.
        cbn [existsb]. rewrite orb_false_r.
        destruct (fails (l, fsub F (t_read tk) (signal_start_time st))).
        -- apply (float_interval_raise F obstacle_nearby interpret gap st tk _ Hc Hd Hi).
        -- destruct (float_step_emits F obstacle_nearby interpret gap st tk _ Hc Hd Hi)
             as (st1 & b & Hstep & H1 & Hm & _).
           exists st1, b. split; [exact Hstep|]. split; [congruence|].
           rewrite Hm. reflexivity.
      * assert (Hd : decodable (last_detected_color st) = false) by (rewrite Hl; exact Hs).
        rewrite <- Hl in Hc. cbn [existsb].
        eexists. eexists.
        split; [apply (float_not_decodable F obstacle_nearby interpret gap st tk Hc Hd)|].
        split; [exact Hf|]. cbn. symmetry. apply append_nil_r.
    + assert (Hd : decodable (last_detected_color st) = false) by (rewrite Hl; reflexivity).
      rewrite <- Hl in Hc. cbn [existsb].
      eexists. eexists.
      split; [apply (float_not_decodable F obstacle_nearby interpret gap st tk Hc Hd)|].
      split; [exact Hf|]. cbn. symmetry. apply append_nil_r.
  - cbn [existsb]. eexists. eexists.
    split; [apply (float_same_color F obstacle_nearby interpret gap st tk Hc)|].
    split; [exact Hf|]. cbn. symmetry. apply append_nil_r.
Qed.

Lemma calibrated_float_run (ticks : list Tick) (st : State) :
  first_signal_duration st = Some u ->
  if existsb fails (measured F obstacle_nearby interpret gap ticks st)
  then decode_path_float F obstacle_nearby interpret gap ticks st = Raise OverflowError
  else exists st' o,
      decode_path_float F obstacle_nearby interpret gap ticks st = Ok (st', o)
      /\ first_signal_duration st' = Some u
      /\ decoded_message st'
         = decoded_message st
           ++ spelled symbols (measured F obstacle_nearby interpret gap ticks st).
Proof.
  revert st. induction ticks as [|tk rest IH]; intros st Hf.
  - cbn. exists st, Continue. split; [reflexivity|]. split; [exact Hf|].
    symmetry. apply append_nil_r.
  - cbn [measured decode_path_float]. rewrite existsb_app.
    pose proof (calibrated_float_step st tk Hf) as Hstep.
    destruct (existsb fails (measured_in_pass F st tk)).
    + rewrite Hstep. reflexivity.
    + destruct Hstep as (st1 & b & Hstep & Hf1 & Hm1).
      rewrite Hstep. cbn [bind snd fst orb]. destruct b.
      * cbn [existsb]. exists st1, Terminate. split; [reflexivity|].
        split; [exact Hf1|]. rewrite app_nil_r. exact Hm1.
      * pose proof (IH st1 Hf1) as Hrest.
        destruct (existsb fails (measured F obstacle_nearby interpret gap rest st1)).
        -- exact Hrest.
        -- destruct Hrest as (st' & o & Hrun & Hf' & Hm').
           exists st', o. split; [exact Hrun|]. split; [exact Hf'|].
           rewrite Hm', Hm1, spelled_app, append_assoc. reflexivity.
Qed.

End CalibratedFloatRuns.

Lemma V1_float_cases (F : FloatOps) (u d : Q) (st : State) (l : Z) :
  ~ u == 0 ->
  first_signal_duration st = Some u ->
  last_detected_color st = Some l ->
  is_signal l = true ->
  V1.interpret_float F d st
  = if overflows F u (l, d) then Raise OverflowError
    else Ok (emit st (V1_symbols F u (l, d))).
Proof.
  intros Hu Hf Hl Hs. unfold is_signal in Hs. apply orb_true_iff in Hs.
  destruct Hs as [H | H]; apply Z.eqb_eq in H; subst l.
  - rewrite (V1_float_red F st d u Hl Hf). reflexivity.
  - rewrite (V1_float_white F st d u Hl Hf Hu).
    unfold overflows, V1_symbols. cbn [fst snd]. change (WHITE =? WHITE)%Z with true.
    cbn [andb]. destruct (fdiv F d u); reflexivity.
Qed.

Lemma V2_float_cases (F : FloatOps) (u d : Q) (st : State) (l : Z) :
  first_signal_duration st = Some u ->
  last_detected_color st = Some l ->
  is_signal l = true ->
  V2.interpret_float F d st
  = if false then Raise OverflowError else Ok (emit st (V2_symbols F u (l, d))).
Proof.
  intros Hf Hl Hs. unfold is_signal in Hs. apply orb_true_iff in Hs.
  destruct st as [l0 s f m]. simpl in Hl, Hf. subst l0 f.
  destruct Hs as [H | H]; apply Z.eqb_eq in H; subst l;
    unfold V2.interpret_float, V2.is_color, unit_of, emit, V2_symbols, lit_0_2, lit_0_5;
    cbn;
    repeat match goal with
           | |- context [Qltb ?x ?y] => destruct (Qltb x y) eqn:?; cbn
           end;
    rewrite ?append_assoc, ?append_nil_r; reflexivity.
Qed.

Lemma existsb_never (A : Type) (l : list A) : existsb (fun _ => false) l = false.
Proof. induction l as [|x l IH]; [reflexivity | exact IH]. Qed.








